(** * The embedding inference gateway of pr_embedding

    A shallow embedding of [app/llm.py], [app/main.py], [app/config.py] and
    [app/schemas.py]: the lazy, lock-protected loader of the llama.cpp
    handle ([EmbeddingModel._load_llama]), the batching dispatcher
    ([EmbeddingModel.embed]) and the two callers of [embed] in the HTTP
    layer ([lifespan] and [create_embeddings]).

    Python integers are [Z], Python lists are [list], the dictionaries of
    an engine response are [gmap string _].  The process state that the code
    mutates (the class attribute [EmbeddingModel._instance], the attribute
    [_model_path] of the cached [EmbeddingModel] object, the log) is an
    explicit [World]; the external collaborators (the file system, the
    Hugging Face hub, llama.cpp) are functions of the history of calls made
    so far, so that they may fail now and succeed later. *)

From Stdlib Require Import ZArith Lia Ascii.
From stdpp Require Import base option list gmap strings.

Local Open Scope string_scope.
Local Open Scope list_scope.
Local Open Scope Z_scope.

(** ** Python values and built-ins *)

(** Exceptions of class [Exception]: the [ValueError] that [range] raises
    for a zero step, and whatever the collaborators raise. *)
Inductive PyException : Type :=
| ValueError (msg : string)
| LibraryError (msg : string).

(** [str(exc)] *)
Definition exc_str (e : PyException) : string :=
  match e with
  | ValueError msg => msg
  | LibraryError msg => msg
  end.

(** The outcome of a call: a value, or a raised exception. *)
Inductive result (A : Type) : Type :=
| Ok (a : A)
| Raise (e : PyException).
Arguments Ok {A} a.
Arguments Raise {A} e.

Definition is_Ok {A} (r : result A) : Prop :=
  match r with Ok _ => True | Raise _ => False end.

(** [a or b] on an optional integer: [None] and [0] are falsy. *)
Definition py_or (a : option Z) (b : Z) : Z :=
  match a with
  | None => b
  | Some n => if n =? 0 then b else n
  end.

(** [len(range(start, stop, step))] for a non-zero step, as CPython
    computes it. *)
Definition range_length (start stop step : Z) : nat :=
  if (0 <? step) && (start <? stop)
  then Z.to_nat ((stop - start - 1) / step + 1)
  else if (step <? 0) && (stop <? start)
  then Z.to_nat ((start - stop - 1) / (- step) + 1)
  else 0%nat.

(** [range(start, stop, step)], which raises [ValueError] for step 0. *)
Definition py_range (start stop step : Z) : result (list Z) :=
  if step =? 0 then Raise (ValueError "range() arg 3 must not be zero")
  else Ok (map (fun k : nat => start + Z.of_nat k * step)
               (seq 0 (range_length start stop step))).

(** A slice bound, clamped as Python does: a negative bound counts from
    the end, and the outcome lies in [0 .. len]. *)
Definition clamp_index (len i : Z) : nat :=
  Z.to_nat (if i <? 0 then Z.max (i + len) 0 else Z.min i len).

(** [l[lo:hi]] *)
Definition py_slice {A} (l : list A) (lo hi : Z) : list A :=
  let n := Z.of_nat (length l) in
  take (clamp_index n hi - clamp_index n lo) (drop (clamp_index n lo) l).

(** [d.get(key, default)] on a dictionary written as an association list *)
Fixpoint dict_get {V} (d : list (string * V)) (key : string) (default : V) : V :=
  match d with
  | [] => default
  | (k, v) :: d' => if String.eqb k key then v else dict_get d' key default
  end.

(** ** Configuration ([app/config.py]) *)

Definition Path := string.

Inductive Pooling : Type := mean | cls | none.

(** The string of the [Literal["mean", "cls", "none"]] *)
Definition pooling_name (p : Pooling) : string :=
  match p with mean => "mean" | cls => "cls" | none => "none" end.

Record Settings : Type := {
  server_host : string;
  server_port : Z;
  model_repo_id : string;
  model_file : string;
  model_cache_dir : Path;
  threads : Z;
  batch_size : Z;
  max_batch_size : Z;
  context_window : Z;
  server_timeout : Z;
  embedding_pooling : Pooling
}.

(** The defaults of the fields of [Settings]. *)
Definition default_settings : Settings := {|
  server_host := "0.0.0.0";
  server_port := 8000;
  model_repo_id := "nomic-ai/nomic-embed-text-v1.5-GGUF";
  model_file := "nomic-embed-text-v1.5.Q4_K_M.gguf";
  model_cache_dir := ".models";
  threads := 4;
  batch_size := 64;
  max_batch_size := 32;
  context_window := 8192;
  server_timeout := 60;
  embedding_pooling := mean
|}.

(** The settings when the environment sets [MAX_BATCH_SIZE]. *)
Definition with_max_batch_size (s : Settings) (n : Z) : Settings := {|
  server_host := server_host s;
  server_port := server_port s;
  model_repo_id := model_repo_id s;
  model_file := model_file s;
  model_cache_dir := model_cache_dir s;
  threads := threads s;
  batch_size := batch_size s;
  max_batch_size := n;
  context_window := context_window s;
  server_timeout := server_timeout s;
  embedding_pooling := embedding_pooling s
|}.

(** The settings when the environment sets [POOLING_STRATEGY]. *)
Definition with_pooling (s : Settings) (p : Pooling) : Settings := {|
  server_host := server_host s;
  server_port := server_port s;
  model_repo_id := model_repo_id s;
  model_file := model_file s;
  model_cache_dir := model_cache_dir s;
  threads := threads s;
  batch_size := batch_size s;
  max_batch_size := max_batch_size s;
  context_window := context_window s;
  server_timeout := server_timeout s;
  embedding_pooling := p
|}.

(** ** The engine ([llama_cpp]) as the gateway sees it *)

(** The value passed as [pooling_type]: a member of
    [LlamaEmbeddingPoolingType] when that enumeration can be imported, the
    bare string otherwise. *)
Inductive PoolingType : Type :=
| PoolingEnum (p : Pooling)
| PoolingString (s : string).

(** The keyword arguments of the constructor [Llama(...)]. *)
Record LlamaArgs : Type := {
  arg_model_path : string;
  arg_embedding : bool;
  n_ctx : Z;
  n_threads : Z;
  n_batch : Z;
  n_gpu_layers : Z
}.

(** A constructed [Llama] object.  Its identity is [llama_id], the position
    in the history of the constructor call that made it: two constructions
    never give the same object. *)
Record Llama : Type := {
  llama_id : nat;
  llama_args : LlamaArgs
}.

(** The keyword arguments of [create_embedding]: [normalize] always, and
    [pooling_type] only when the key was added. *)
Record Kwargs : Type := {
  kw_normalize : bool;
  kw_pooling_type : option PoolingType
}.

(** The inputs of [embed] and of a request: a bare string or a sequence. *)
Inductive Inputs : Type :=
| InStr (s : string)
| InSeq (l : list string).

(** Log records of the [logging] module. *)
Inductive LogLevel : Type := INFO | WARNING | ERROR.

Record LogRecord : Type := {
  log_level : LogLevel;
  log_message : string
}.

(** What a route handler gives back: a body, or a raised [HTTPException]. *)
Inductive HttpResult (A : Type) : Type :=
| Http200 (body : A)
| HTTPException (status_code : Z) (detail : string).
Arguments Http200 {A} body.
Arguments HTTPException {A} status_code detail.

(** ** The process state and the collaborators *)

Section Gateway.

(** An embedding vector ([list[float]]); the gateway never looks inside. *)
Context {Vec : Type}.

(** The engine's answer to [create_embedding]: a dictionary whose ["data"]
    is a list of dictionaries, each expected to carry an ["embedding"]
    (the other keys of an entry, ["index"] and ["object"], are never read).
    Answers of another shape, without ["data"] or with an entry that is not
    a dictionary, on which the subscripts of [embed] would raise, are not
    values of this type. *)
Record Response : Type := {
  data : list (gmap string Vec)
}.

(** One call to a collaborator, with its arguments and its outcome. *)
Inductive Event : Type :=
| EvMkdir (dir : Path) (outcome : result unit)
| EvDownload (repo_id filename : string) (local_dir : Path)
             (outcome : result Path)
| EvLlama (args : LlamaArgs) (outcome : result Llama)
| EvCreateEmbedding (llama : Llama) (chunk : list string) (kwargs : Kwargs)
                    (outcome : result Response).

(** What the code mutates.  [trace] is the history of calls to the
    collaborators, oldest first. *)
Record World : Type := {
  _instance : option Llama;
  _model_path : option Path;
  trace : list Event;
  log : list LogRecord
}.

(** The module-level state at import time. *)
Definition initial_world : World :=
  {| _instance := None; _model_path := None; trace := []; log := [] |}.

(** [settings = Settings()] *)
Variable settings : Settings.

(** Whether [from llama_cpp import LlamaEmbeddingPoolingType] succeeds. *)
Variable pooling_enum_importable : bool.

(** Whether ["pooling_type"] is a parameter of [Llama.create_embedding]
    (probed once, at import). *)
Variable _CREATE_EMBEDDING_ACCEPTS_POOLING : bool.

(** The collaborators.  Each sees the history so far. *)
Variable mkdir : list Event -> Path -> result unit.
Variable hf_hub_download : list Event -> string -> string -> Path -> result Path.
Variable Llama_init : list Event -> LlamaArgs -> result unit.
Variable create_embedding :
  list Event -> Llama -> list string -> Kwargs -> result Response.

(** ** A state and exception monad for the sequential code *)

Definition M (A : Type) : Type := World -> World * result A.

Definition ret {A} (a : A) : M A := fun w => (w, Ok a).

Definition bind {A B} (c : M A) (k : A -> M B) : M B :=
  fun w =>
    match c w with
    | (w1, Ok a) => k a w1
    | (w1, Raise e) => (w1, Raise e)
    end.

(** [try: c  except Exception as exc: handler(exc)] *)
Definition try_except {A} (c : M A) (handler : PyException -> M A) : M A :=
  fun w =>
    match c w with
    | (w1, Ok a) => (w1, Ok a)
    | (w1, Raise e) => handler e w1
    end.

(** Lifting the outcome of a built-in. *)
Definition lift {A} (r : result A) : M A := fun w => (w, r).

Notation "x <- c ;; k" := (bind c (fun x => k))
  (at level 100, c at next level, right associativity).
Notation "c ;;; k" := (bind c (fun _ => k))
  (at level 100, right associativity).

Definition record_event (ev : Event) (w : World) : World :=
  {| _instance := _instance w; _model_path := _model_path w;
     trace := trace w ++ [ev]; log := log w |}.

Definition get_instance : M (option Llama) := fun w => (w, Ok (_instance w)).

Definition set_instance (h : Llama) : M unit :=
  fun w => ({| _instance := Some h; _model_path := _model_path w;
               trace := trace w; log := log w |}, Ok tt).

Definition set_model_path (p : Path) : M unit :=
  fun w => ({| _instance := _instance w; _model_path := Some p;
               trace := trace w; log := log w |}, Ok tt).

Definition logger (level : LogLevel) (msg : string) : M unit :=
  fun w => ({| _instance := _instance w; _model_path := _model_path w;
               trace := trace w;
               log := log w ++ [{| log_level := level; log_message := msg |}] |},
            Ok tt).

(** The calls to the collaborators, recorded in the history. *)
Definition call_mkdir (dir : Path) : M unit :=
  fun w => let r := mkdir (trace w) dir in (record_event (EvMkdir dir r) w, r).

Definition call_hf_hub_download (repo_id filename : string) (local_dir : Path)
  : M Path :=
  fun w =>
    let r := hf_hub_download (trace w) repo_id filename local_dir in
    (record_event (EvDownload repo_id filename local_dir r) w, r).

(** The constructor [Llama]: when it succeeds the new object is the
    one made at this position of the history. *)
Definition construct (tr : list Event) (args : LlamaArgs) : result Llama :=
  match Llama_init tr args with
  | Ok _ => Ok {| llama_id := length tr; llama_args := args |}
  | Raise e => Raise e
  end.

Definition call_Llama (args : LlamaArgs) : M Llama :=
  fun w => let r := construct (trace w) args in (record_event (EvLlama args r) w, r).

Definition call_create_embedding (llama : Llama) (chunk : list string)
    (kwargs : Kwargs) : M Response :=
  fun w =>
    let r := create_embedding (trace w) llama chunk kwargs in
    (record_event (EvCreateEmbedding llama chunk kwargs r) w, r).

(** ** [app/llm.py] *)

Definition POOLING_OPTIONS : list (string * PoolingType) :=
  if pooling_enum_importable
  then [("mean", PoolingEnum mean); ("cls", PoolingEnum cls);
        ("none", PoolingEnum none)]
  else [("mean", PoolingString "mean"); ("cls", PoolingString "cls");
        ("none", PoolingString "none")].

(** [POOLING_OPTIONS["mean"]] *)
Definition POOLING_OPTIONS_mean : PoolingType :=
  if pooling_enum_importable then PoolingEnum mean else PoolingString "mean".

Definition _download_model : M Path :=
  call_mkdir (model_cache_dir settings) ;;;
  model_path <- call_hf_hub_download (model_repo_id settings)
                  (model_file settings) (model_cache_dir settings) ;;
  set_model_path model_path ;;;
  ret model_path.

(** The arguments [_load_llama] gives to the constructor. *)
Definition llama_args_of (model_path : Path) : LlamaArgs :=
  {| arg_model_path := model_path;
     arg_embedding := true;
     n_ctx := context_window settings;
     n_threads := threads settings;
     n_batch := batch_size settings;
     n_gpu_layers := 0 |}.

(** [_load_llama] run by one caller while no other caller is inside it:
    the lock is then free, and taking and releasing it changes nothing;
    each [return EmbeddingModel._instance] reads the attribute again and
    finds what the caller has just seen or just written.  (The interleaved
    runs of several callers are [step] below, and a caller alone in [step]
    does what this function does, see [solo_run_is_load_llama].) *)
Definition _load_llama : M Llama :=
  inst <- get_instance ;;
  match inst with
  | Some h => ret h
  | None =>
      inst <- get_instance ;;
      match inst with
      | Some h => ret h
      | None =>
          model_path <- _download_model ;;
          h <- call_Llama (llama_args_of model_path) ;;
          set_instance h ;;;
          ret h
      end
  end.

Definition _ensure_iterable (texts : Inputs) : list string :=
  match texts with
  | InStr s => [s]
  | InSeq l => l
  end.

(** [min(batch_size or settings.max_batch_size, settings.max_batch_size)] *)
Definition resolved_batch_of (batch_size : option Z) : Z :=
  Z.min (py_or batch_size (max_batch_size settings)) (max_batch_size settings).

(** The [kwargs] of one [create_embedding] call. *)
Definition kwargs_of (normalize : bool) (pooling : PoolingType) : Kwargs :=
  {| kw_normalize := normalize;
     kw_pooling_type :=
       if _CREATE_EMBEDDING_ACCEPTS_POOLING then Some pooling else None |}.

(** [[item["embedding"] for item in response["data"] if "embedding" in item]] *)
Definition chunk_embeddings_of (response : Response) : list Vec :=
  omap (fun item : gmap string Vec => item !! "embedding") (data response).

(** The body of the [for] loop of [embed], over the indices still to visit;
    [embeddings] is the list extended so far. *)
Fixpoint embed_loop (llama : Llama) (payload : list string) (resolved_batch : Z)
    (kwargs : Kwargs) (indices : list Z) (embeddings : list Vec)
  : M (list Vec) :=
  match indices with
  | [] => ret embeddings
  | index :: indices' =>
      let chunk := py_slice payload index (index + resolved_batch) in
      response <- call_create_embedding llama chunk kwargs ;;
      embed_loop llama payload resolved_batch kwargs indices'
        (embeddings ++ chunk_embeddings_of response)
  end.

Definition embed (inputs : Inputs) (normalize : bool) (batch_size : option Z)
  : M (list Vec) :=
  llama <- _load_llama ;;
  let payload := _ensure_iterable inputs in
  match payload with
  | [] => ret []
  | _ :: _ =>
      let resolved_batch := resolved_batch_of batch_size in
      let pooling :=
        dict_get POOLING_OPTIONS (pooling_name (embedding_pooling settings))
          POOLING_OPTIONS_mean in
      indices <- lift (py_range 0 (Z.of_nat (length payload)) resolved_batch) ;;
      embed_loop llama payload resolved_batch (kwargs_of normalize pooling)
        indices []
  end.

(** ** [app/schemas.py] *)

Record EmbeddingRequest : Type := {
  req_input : Inputs;
  req_normalize : bool;
  req_batch_size : option Z
}.

(** [batch_size: int | None = Field(default=None, ge=1)] *)
Definition batch_size_ge_1 (batch_size : option Z) : Prop :=
  match batch_size with
  | None => True
  | Some n => 1 <= n
  end.

Record EmbeddingData : Type := {
  index : Z;
  embedding : Vec
}.

Record EmbeddingResponse : Type := {
  response_data : list EmbeddingData;
  response_model : string
}.

(** ** [app/main.py] *)

Definition _normalize_inputs (raw_input : Inputs) : list string :=
  match raw_input with
  | InStr s => [s]
  | InSeq l => l
  end.

(** [await loop.run_in_executor(None, model.embed, ["warmup"])]: the
    coroutine resumes with the outcome of the one call it submitted. *)
Definition _warm_model : M unit :=
  embed (InSeq ["warmup"]) true None ;;;
  ret tt.

(** The part of [lifespan] that runs before [yield], that is before the
    application starts to serve. *)
Definition lifespan : M unit :=
  try_except
    (_warm_model ;;;
     logger INFO "Embedding model loaded successfully.")
    (fun exc => logger WARNING ("Model warmup failed: " +:+ exc_str exc)).

(** [enumerate(embeddings)] turned into [EmbeddingData] *)
Definition embedding_data (embeddings : list Vec) : list EmbeddingData :=
  imap (fun (i : nat) (vector : Vec) =>
          {| index := Z.of_nat i; embedding := vector |}) embeddings.

(** The handler.  The vectors are taken to be what [EmbeddingData] accepts,
    lists of floats; its validation of a vector of another shape, which
    would raise after the [try], is not part of this definition. *)
Definition create_embeddings (request : EmbeddingRequest)
  : World -> World * HttpResult EmbeddingResponse :=
  fun w =>
    let inputs := _normalize_inputs (req_input request) in
    match embed (InSeq inputs) (req_normalize request) (req_batch_size request) w with
    | (w1, Raise exc) =>
        (fst (logger ERROR "Failed to generate embeddings." w1),
         HTTPException 500 ("Embedding failure: " +:+ exc_str exc))
    | (w1, Ok embeddings) =>
        (w1,
         Http200 {| response_data := embedding_data embeddings;
                    response_model :=
                      model_repo_id settings +:+ ":" +:+ model_file settings |})
    end.

(** ** [_load_llama] under contention

    Several callers run [_load_llama] at once.  Each is at one program
    point; a step of the system is one caller executing the statement at
    its program point, atomically (the interpreter switches threads between
    statements, not inside a read or a write of an attribute). *)

Inductive Pc : Type :=
| PFastCheck                   (* at [if _instance is not None], outside the lock *)
| PFastReturn                  (* at the [return _instance] under it *)
| PAcquire                     (* at [with _lock], waiting for the lock *)
| PSlowCheck                   (* in the lock, at the second [if] *)
| PLockedReturn                (* in the lock, at a [return _instance] *)
| PMkdir                       (* in [_download_model], at [mkdir] *)
| PDownload                    (* at [hf_hub_download] *)
| PSetPath (model_path : Path) (* at [self._model_path = model_path] *)
| PConstruct (model_path : Path) (* at the call [Llama(...)] *)
| PAssign (h : Llama)          (* at the assignment to [_instance] *)
| PReturned (r : option Llama) (* returned [r] *)
| PRaised (e : PyException).   (* left by an exception *)

Record Conc : Type := {
  world : World;
  lock : option nat;             (* the caller that holds [_lock] *)
  callers : list Pc
}.

(** The statement at [pc], executed by caller [i]: the next program point,
    the new state and the new owner of the lock; [None] when the caller
    cannot move (it waits for the lock, or it has finished).  Leaving the
    [with] block, by [return] or by an exception, releases the lock. *)
Definition thread_step (i : nat) (pc : Pc) (w : World) (lk : option nat)
  : option (Pc * World * option nat) :=
  match pc with
  | PFastCheck =>
      Some (match _instance w with Some _ => PFastReturn | None => PAcquire end,
            w, lk)
  | PFastReturn => Some (PReturned (_instance w), w, lk)
  | PAcquire =>
      match lk with
      | None => Some (PSlowCheck, w, Some i)
      | Some _ => None
      end
  | PSlowCheck =>
      Some (match _instance w with Some _ => PLockedReturn | None => PMkdir end,
            w, lk)
  | PLockedReturn => Some (PReturned (_instance w), w, None)
  | PMkdir =>
      match call_mkdir (model_cache_dir settings) w with
      | (w1, Ok _) => Some (PDownload, w1, lk)
      | (w1, Raise e) => Some (PRaised e, w1, None)
      end
  | PDownload =>
      match call_hf_hub_download (model_repo_id settings) (model_file settings)
              (model_cache_dir settings) w with
      | (w1, Ok model_path) => Some (PSetPath model_path, w1, lk)
      | (w1, Raise e) => Some (PRaised e, w1, None)
      end
  | PSetPath model_path =>
      Some (PConstruct model_path, fst (set_model_path model_path w), lk)
  | PConstruct model_path =>
      match call_Llama (llama_args_of model_path) w with
      | (w1, Ok h) => Some (PAssign h, w1, lk)
      | (w1, Raise e) => Some (PRaised e, w1, None)
      end
  | PAssign h => Some (PLockedReturn, fst (set_instance h w), lk)
  | PReturned _ => None
  | PRaised _ => None
  end.

(** One step of the system: some caller executes its statement. *)
Inductive step (c : Conc) : Conc -> Prop :=
| step_caller (i : nat) (pc pc' : Pc) (w' : World) (lk' : option nat) :
    callers c !! i = Some pc ->
    thread_step i pc (world c) (lock c) = Some (pc', w', lk') ->
    step c {| world := w'; lock := lk'; callers := <[i := pc']> (callers c) |}.

(** [n] callers enter [_load_llama] at once. *)
Definition conc_init (n : nat) (w : World) : Conc :=
  {| world := w; lock := None; callers := replicate n PFastCheck |}.

(** The system run under a schedule: a list of caller numbers, each taking
    one step in turn (a caller that cannot move is skipped). *)
Definition sched_step (c : Conc) (i : nat) : Conc :=
  match callers c !! i with
  | Some pc =>
      match thread_step i pc (world c) (lock c) with
      | Some (pc', w', lk') =>
          {| world := w'; lock := lk'; callers := <[i := pc']> (callers c) |}
      | None => c
      end
  | None => c
  end.

Definition run_schedule (schedule : list nat) (c : Conc) : Conc :=
  foldl sched_step c schedule.

Definition finished (pc : Pc) : bool :=
  match pc with
  | PReturned _ | PRaised _ => true
  | _ => false
  end.

Definition holds_lock (pc : Pc) : bool :=
  match pc with
  | PSlowCheck | PLockedReturn | PMkdir | PDownload | PSetPath _
  | PConstruct _ | PAssign _ => true
  | _ => false
  end.

(** The number of statements a caller at [pc] may still execute. *)
Definition pc_fuel (pc : Pc) : nat :=
  match pc with
  | PFastCheck => 9
  | PAcquire => 8
  | PSlowCheck => 7
  | PMkdir => 6
  | PDownload => 5
  | PSetPath _ => 4
  | PConstruct _ => 3
  | PAssign _ => 2
  | PLockedReturn => 1
  | PFastReturn => 1
  | PReturned _ => 0
  | PRaised _ => 0
  end%nat.

Definition conc_fuel (c : Conc) : nat := sum_list (pc_fuel <$> callers c).

(** ** Reading the history *)

(** The [create_embedding] calls of a history: chunk, arguments, outcome. *)
Definition compute_calls (evs : list Event)
  : list (list string * Kwargs * result Response) :=
  omap (fun ev =>
          match ev with
          | EvCreateEmbedding _ chunk kwargs r => Some (chunk, kwargs, r)
          | _ => None
          end) evs.

(** The constructor calls of a history, and those that succeeded. *)
Definition constructions (evs : list Event) : list (result Llama) :=
  omap (fun ev => match ev with EvLlama _ r => Some r | _ => None end) evs.

Definition constructed (evs : list Event) : list Llama :=
  omap (fun ev => match ev with EvLlama _ (Ok h) => Some h | _ => None end) evs.

(** The downloads attempted in a history. *)
Definition downloads (evs : list Event) : list (result Path) :=
  omap (fun ev => match ev with EvDownload _ _ _ r => Some r | _ => None end) evs.

(** ** Stand-ins for the collaborators, for the examples *)

Definition mkdir_ok : list Event -> Path -> result unit :=
  fun _ _ => Ok tt.

Definition download_ok : list Event -> string -> string -> Path -> result Path :=
  fun _ _ filename local_dir => Ok (local_dir +:+ "/" +:+ filename).

Definition download_offline
  : list Event -> string -> string -> Path -> result Path :=
  fun _ _ _ _ => Raise (LibraryError "offline").

(** A hub that cannot be reached the first time and can afterwards. *)
Definition download_flaky
  : list Event -> string -> string -> Path -> result Path :=
  fun tr _ filename local_dir =>
    match downloads tr with
    | [] => Raise (LibraryError "offline")
    | _ :: _ => Ok (local_dir +:+ "/" +:+ filename)
    end.

Definition Llama_init_ok : list Event -> LlamaArgs -> result unit :=
  fun _ _ => Ok tt.

(** An engine that answers every string [s] with the vector [vec s]. *)
Definition engine (vec : string -> Vec)
  : list Event -> Llama -> list string -> Kwargs -> result Response :=
  fun _ _ chunk _ =>
    Ok {| data := (fun s => {[ "embedding" := vec s ]}) <$> chunk |}.

(** An engine whose entry for the string [bad] carries no vector. *)
Definition engine_dropping (bad : string) (vec : string -> Vec)
  : list Event -> Llama -> list string -> Kwargs -> result Response :=
  fun _ _ chunk _ =>
    Ok {| data := (fun s => if String.eqb s bad then ∅
                            else {[ "embedding" := vec s ]}) <$> chunk |}.

(** An engine that raises on a chunk that holds the string [bad]. *)
Definition engine_failing_on (bad : string) (vec : string -> Vec)
  : list Event -> Llama -> list string -> Kwargs -> result Response :=
  fun _ _ chunk _ =>
    if existsb (String.eqb bad) chunk
    then Raise (LibraryError "engine failure")
    else Ok {| data := (fun s => {[ "embedding" := vec s ]}) <$> chunk |}.

(** ** The sub-batches, as the specification words them *)

(** The effective sub-batch size: the requested size if provided, else the
    configured maximum, and never more than the configured maximum. *)
Definition effective_batch_spec (requested : option Z) (configured_max : Z) : Z :=
  Z.min (match requested with Some n => n | None => configured_max end)
        configured_max.

(** The contiguous chunks of at most [n] elements each. *)
Fixpoint chunks_fuel {A} (fuel n : nat) (l : list A) : list (list A) :=
  match fuel, l with
  | O, _ => []
  | _, [] => []
  | S fuel', _ => take n l :: chunks_fuel fuel' n (drop n l)
  end.

Definition chunks {A} (n : nat) (l : list A) : list (list A) :=
  chunks_fuel (length l) n l.

(** The state after more calls to the collaborators. *)
Definition add_events (evs : list Event) (w : World) : World :=
  {| _instance := _instance w; _model_path := _model_path w;
     trace := trace w ++ evs; log := log w |}.

(** The event of one [create_embedding] call of a loop: the chunk and the
    outcome vary, the handle and the arguments do not. *)
Definition call_event (llama : Llama) (kwargs : Kwargs)
    (c : list string * result Response) : Event :=
  EvCreateEmbedding llama (fst c) kwargs (snd c).

(** The sub-batches of one [embed] call: the chunks of the payload for a
    positive sub-batch size, none otherwise. *)
Definition sub_batches (payload : list string) (resolved_batch : Z)
  : list (list string) :=
  if 0 <? resolved_batch then chunks (Z.to_nat resolved_batch) payload else [].

(** The engine's value for a pooling strategy. *)
Definition pooling_value (p : Pooling) : PoolingType :=
  if pooling_enum_importable then PoolingEnum p
  else PoolingString (pooling_name p).

(** The chunks handed to [create_embedding] in a history, in call order. *)
Definition passed_chunks (evs : list Event) : list (list string) :=
  (fun c => fst (fst c)) <$> compute_calls evs.

(** ** The invariant of the contended runs *)

Definition raised (pc : Pc) : bool :=
  match pc with
  | PRaised _ => true
  | _ => false
  end.

(** What a caller at [pc] knows of [_instance] and of the handles built
    since the callers entered. *)
Definition pc_ok (inst : option Llama) (built : list Llama) (pc : Pc) : Prop :=
  match pc with
  | PFastCheck | PAcquire | PSlowCheck | PRaised _ => True
  | PFastReturn | PLockedReturn => is_Some inst
  | PMkdir | PDownload | PSetPath _ | PConstruct _ => inst = None /\ built = []
  | PAssign h => inst = None /\ built = [h]
  | PReturned r => r = inst /\ is_Some inst
  end.

(** The state of a contended run whose callers entered with history [tr0]
    and have since added the events [evs]. *)
Record conc_inv (tr0 evs : list Event) (c : Conc) : Prop := {
  inv_trace : trace (world c) = tr0 ++ evs;
  inv_holder : forall i pc,
    callers c !! i = Some pc -> holds_lock pc = true -> lock c = Some i;
  inv_locked : forall i,
    lock c = Some i ->
    exists pc, callers c !! i = Some pc /\ holds_lock pc = true;
  inv_pc : forall i pc,
    callers c !! i = Some pc ->
    pc_ok (_instance (world c)) (constructed evs) pc;
  inv_cached : forall h,
    _instance (world c) = Some h -> constructed evs = [h];
  inv_unset :
    _instance (world c) = None ->
    constructed evs = [] \/ exists i h, callers c !! i = Some (PAssign h);
  inv_attempts :
    (forall i pc, callers c !! i = Some pc -> raised pc = false) ->
    length (constructions evs) = length (constructed evs)
}.

(** ** More of the code: validation, the service, the latency probe *)

(** A [string] stands for a Python [str] whose characters have code points
    below 256, one [ascii] per character.  [str.isspace] on such a
    character: the controls 9 to 13 and 28 to 31, the space, NEL (133) and
    the no-break space (160). *)
Definition py_isspace (c : Ascii.ascii) : bool :=
  let n := Ascii.nat_of_ascii c in
  ((9 <=? n) && (n <=? 13) || (28 <=? n) && (n <=? 32)
   || (n =? 133) || (n =? 160))%nat.

(** [s.lstrip(chars)] and [s.rstrip(chars)], for the characters in [p]. *)
Fixpoint lstrip_with (p : Ascii.ascii -> bool) (s : string) : string :=
  match s with
  | EmptyString => EmptyString
  | String c s' => if p c then lstrip_with p s' else s
  end.

Fixpoint rstrip_with (p : Ascii.ascii -> bool) (s : string) : string :=
  match s with
  | EmptyString => EmptyString
  | String c s' =>
      match rstrip_with p s' with
      | EmptyString => if p c then EmptyString else String c EmptyString
      | String c' r => String c (String c' r)
      end
  end.

(** [s.strip()] *)
Definition py_strip (s : string) : string :=
  rstrip_with py_isspace (lstrip_with py_isspace s).

(** The truth value of a [str]: false for the empty one. *)
Definition str_truthy (s : string) : bool :=
  match s with
  | EmptyString => false
  | String _ _ => true
  end.

(** [EmbeddingRequest.validate_input] of [app/schemas.py].  A list or a
    tuple is [InSeq]; its items are strings by type. *)
Definition validate_input (value : Inputs) : result Inputs :=
  match value with
  | InSeq items =>
      match items with
      | [] => Raise (ValueError "input must contain at least one string")
      | _ :: _ =>
          if forallb (fun item => str_truthy (py_strip item)) items
          then Ok value
          else Raise (ValueError "each item in input must be a non-empty string")
      end
  | InStr s =>
      if str_truthy (py_strip s) then Ok value
      else Raise (ValueError "input must be a non-empty string")
  end.


(** The requests of a life of the service, handled one after the other:
    [create_embeddings] is a coroutine that never awaits, so the event loop
    runs each call of it to its end before it starts the next. *)
Fixpoint serve (requests : list EmbeddingRequest) (w : World)
  : World * list (HttpResult EmbeddingResponse) :=
  match requests with
  | [] => (w, [])
  | request :: requests' =>
      let (w1, response) := create_embeddings request w in
      let (w2, responses) := serve requests' w1 in
      (w2, response :: responses)
  end.

(** The start of the service, then its requests. *)
Definition service (requests : list EmbeddingRequest) (w : World)
  : World * list (HttpResult EmbeddingResponse) :=
  serve requests (fst (lifespan w)).

(** A state in which the handles built are the one cached, and every call
    to the engine was made on the cached handle. *)
Definition world_ok (w : World) : Prop :=
  constructed (trace w) = option_list (_instance w)
  /\ Forall (fun ev =>
               match ev with
               | EvCreateEmbedding h _ _ _ => _instance w = Some h
               | _ => True
               end) (trace w).

(** *** [scripts/measure_latency.py] *)





(** [base_url.rstrip("/")] and the two URLs built on it. *)
Definition strip_base_url (base_url : string) : string :=
  rstrip_with (Ascii.eqb "/"%char) base_url.

Definition health_url (base_url : string) : string :=
  strip_base_url base_url +:+ "/health".

Definition embeddings_url (base_url : string) : string :=
  strip_base_url base_url +:+ "/v1/embeddings".

(** ** Facts about the built-ins *)

Lemma py_or_positive (a : option Z) (b : Z) :
  batch_size_ge_1 a -> py_or a b = match a with Some n => n | None => b end.
Proof.
  destruct a as [n|]; simpl; [|done].
  intros Hn. destruct (Z.eqb_spec n 0); [lia|done].
Qed.

Lemma range_length_pos (n B : nat) :
  (0 < B)%nat ->
  range_length 0 (Z.of_nat n) (Z.of_nat B) = Nat.div (n + B - 1) B.
Proof.
  intros HB. unfold range_length.
  destruct (Z.ltb_spec 0 (Z.of_nat B)); [|lia].
  destruct (Z.ltb_spec (Z.of_nat B) 0); [lia|].
  destruct (Z.ltb_spec 0 (Z.of_nat n)); simpl.
  - replace (Z.of_nat n - 0 - 1) with (Z.of_nat (n - 1)) by lia.
    rewrite <- (Nat2Z.inj_div (n - 1) B).
    replace (Z.of_nat ((n - 1) / B) + 1) with (Z.of_nat ((n - 1) / B + 1)) by lia.
    rewrite Nat2Z.id.
    replace (n + B - 1)%nat with ((n - 1) + 1 * B)%nat by lia.
    rewrite Nat.div_add by lia. done.
  - assert (n = 0%nat) as -> by lia. simpl.
    rewrite Nat.div_small by lia. done.
Qed.

Lemma range_length_neg (stop step : Z) :
  0 <= stop -> step < 0 -> range_length 0 stop step = 0%nat.
Proof.
  intros Hs Hb. unfold range_length.
  destruct (Z.ltb_spec 0 step); [lia|].
  destruct (Z.ltb_spec step 0); [|lia].
  destruct (Z.ltb_spec stop 0); [lia|]. done.
Qed.

Lemma py_slice_block {A} (l : list A) (k B : nat) :
  py_slice l (Z.of_nat (k * B)) (Z.of_nat (k * B) + Z.of_nat B)
  = take B (drop (k * B) l).
Proof.
  unfold py_slice, clamp_index.
  destruct (Z.ltb_spec (Z.of_nat (k * B)) 0); [lia|].
  destruct (Z.ltb_spec (Z.of_nat (k * B) + Z.of_nat B) 0); [lia|].
  destruct (decide (k * B <= length l)%nat) as [Hle|Hgt].
  - rewrite (Z.min_l (Z.of_nat (k * B))) by lia. rewrite Nat2Z.id.
    destruct (decide (k * B + B <= length l)%nat).
    + rewrite Z.min_l by lia. f_equal. lia.
    + rewrite Z.min_r by lia. rewrite Nat2Z.id.
      rewrite !take_ge; [done| |]; rewrite length_drop; lia.
  - rewrite (Z.min_r (Z.of_nat (k * B))) by lia. rewrite Nat2Z.id.
    rewrite !drop_ge by lia. by rewrite !take_nil.
Qed.

Lemma concat_blocks {A} (B K : nat) (l : list A) :
  (length l <= K * B)%nat ->
  concat ((fun k => take B (drop (k * B) l)) <$> seq 0 K) = l.
Proof.
  revert l. induction K as [|K IH]; intros l Hl.
  - simpl in *. destruct l; [done|simpl in Hl; lia].
  - simpl. rewrite drop_0. rewrite <- fmap_S_seq, <- list_fmap_compose.
    transitivity (take B l ++ drop B l); [|apply take_drop]. f_equal.
    etransitivity; [|apply (IH (drop B l)); rewrite length_drop; lia].
    f_equal. apply list_fmap_ext. intros _ k _. simpl.
    rewrite drop_drop. repeat f_equal; lia.
Qed.

Lemma chunks_fuel_blocks {A} (B : nat) (l : list A) (fuel : nat) :
  (0 < B)%nat -> (length l <= fuel)%nat ->
  chunks_fuel fuel B l
  = (fun k => take B (drop (k * B) l)) <$> seq 0 ((length l + B - 1) / B).
Proof.
  intros HB. revert l. induction fuel as [|fuel IH]; intros l Hl.
  - destruct l; [|simpl in Hl; lia]. simpl. rewrite Nat.div_small by lia. done.
  - destruct l as [|x l].
    + simpl. rewrite Nat.div_small by lia. done.
    + cbn [chunks_fuel]. set (l' := x :: l) in *.
      assert (0 < length l')%nat by (subst l'; simpl; lia).
      replace ((length l' + B - 1) / B)%nat
        with (S ((length (drop B l') + B - 1) / B)).
      2:{ rewrite length_drop.
          destruct (decide (B <= length l')%nat).
          - replace (length l' + B - 1)%nat with ((length l' - B + B - 1) + 1 * B)%nat by lia.
            rewrite Nat.div_add by lia. lia.
          - replace (length l' - B)%nat with 0%nat by lia.
            rewrite (Nat.div_small (0 + B - 1)) by lia.
            replace (length l' + B - 1)%nat with ((length l' - 1) + 1 * B)%nat by lia.
            rewrite Nat.div_add by lia. rewrite Nat.div_small by lia. done. }
      cbn [seq fmap list_fmap]. rewrite drop_0. f_equal.
      rewrite IH by (rewrite length_drop; lia).
      rewrite <- fmap_S_seq, <- list_fmap_compose.
      apply list_fmap_ext. intros _ k _. simpl.
      rewrite drop_drop. repeat f_equal; lia.
Qed.

(** ** The loop of [embed] *)

Lemma add_events_nil (w : World) : add_events [] w = w.
Proof. destruct w. unfold add_events. simpl. by rewrite app_nil_r. Qed.

Lemma add_events_record (ev : Event) (evs : list Event) (w : World) :
  add_events evs (record_event ev w) = add_events (ev :: evs) w.
Proof. unfold add_events, record_event. simpl. by rewrite <- app_assoc. Qed.

(** What a run of the loop does: it calls [create_embedding] on the slices
    of a prefix of [indices], in order, and stops at the first call that
    raises; when no call raises it returns the vectors kept from every
    response, after those it started with. *)
Lemma embed_loop_spec (llama : Llama) (payload : list string) (b : Z)
    (kwargs : Kwargs) (indices : list Z) :
  forall (embeddings : list Vec) (w : World),
  exists calls : list (list string * result Response),
    fst (embed_loop llama payload b kwargs indices embeddings w)
    = add_events (call_event llama kwargs <$> calls) w
    /\ fst <$> calls
       = take (length calls) ((fun i => py_slice payload i (i + b)) <$> indices)
    /\ Forall (fun c => exists tr, snd c = create_embedding tr llama (fst c) kwargs)
              calls
    /\ match snd (embed_loop llama payload b kwargs indices embeddings w) with
       | Ok res =>
           length calls = length indices
           /\ exists resps,
                snd <$> calls = Ok <$> resps
                /\ res = embeddings ++ concat (chunk_embeddings_of <$> resps)
       | Raise e => exists resps, snd <$> calls = (Ok <$> resps) ++ [Raise e]
       end.
Proof.
  induction indices as [|i indices IH]; intros embeddings w.
  - exists []. simpl. rewrite add_events_nil. repeat split; auto.
    exists []. simpl. by rewrite app_nil_r.
  - cbn [embed_loop]. unfold bind, call_create_embedding.
    set (chunk := py_slice payload i (i + b)).
    destruct (create_embedding (trace w) llama chunk kwargs) as [resp|e] eqn:Hr.
    + set (w1 := record_event _ w).
      destruct (IH (embeddings ++ chunk_embeddings_of resp) w1)
        as (calls & Hw & Hch & Hor & Hres).
      exists ((chunk, Ok resp) :: calls). split; [|split; [|split]].
      * rewrite Hw. subst w1. by rewrite add_events_record.
      * rewrite !fmap_cons. cbn [length take fst]. f_equal. exact Hch.
      * constructor; [|done]. exists (trace w). by simpl.
      * destruct (snd (embed_loop _ _ _ _ _ _ w1)) as [res|e].
        -- destruct Hres as (Hlen & resps & Hs & ->). split; [simpl; lia|].
           exists (resp :: resps). rewrite !fmap_cons, Hs. cbn [snd concat].
           by rewrite <- app_assoc.
        -- destruct Hres as (resps & Hs). exists (resp :: resps).
           by rewrite !fmap_cons, Hs.
    + exists [(chunk, Raise e)]. simpl. split; [|split; [|split]].
      * unfold add_events, record_event. done.
      * done.
      * constructor; [|done]. exists (trace w). by simpl.
      * by exists [].
Qed.

(** ** The chunks *)

Lemma chunks_blocks {A} (B : nat) (l : list A) :
  (0 < B)%nat ->
  chunks B l
  = (fun k => take B (drop (k * B) l)) <$> seq 0 ((length l + B - 1) / B).
Proof. intros HB. by apply chunks_fuel_blocks. Qed.

Lemma concat_chunks {A} (B : nat) (l : list A) :
  (0 < B)%nat -> concat (chunks B l) = l.
Proof.
  intros HB. rewrite chunks_blocks by done. apply concat_blocks.
  pose proof (Nat.div_mod_eq (length l + B - 1) B) as Hd.
  pose proof (Nat.mod_upper_bound (length l + B - 1) B). nia.
Qed.

Lemma chunks_fuel_bounds {A} (B : nat) (fuel : nat) (l : list A) :
  (0 < B)%nat ->
  Forall (fun c => (0 < length c <= B)%nat) (chunks_fuel fuel B l).
Proof.
  intros HB. revert l. induction fuel as [|fuel IH]; intros l; [constructor|].
  destruct l as [|x l]; [constructor|]. cbn [chunks_fuel].
  constructor; [|apply IH].
  rewrite length_take. simpl. lia.
Qed.

Lemma chunks_bounds {A} (B : nat) (l : list A) :
  (0 < B)%nat -> Forall (fun c => (0 < length c <= B)%nat) (chunks B l).
Proof. intros HB. by apply chunks_fuel_bounds. Qed.

(** Blocks shaped like the chunks of [l] are addressed as [l] is: element
    [i] is element [i mod B] of block [i / B]. *)
Lemma lookup_concat_shaped {A V} (B : nat) (fuel : nat) :
  (0 < B)%nat ->
  forall (l : list A) (vs : list (list V)) (i : nat),
    Forall2 (fun c v => length v = length c) (chunks_fuel fuel B l) vs ->
    (length l <= fuel)%nat ->
    (i < length l)%nat ->
    concat vs !! i = vs !! (i / B)%nat ≫= (fun v => v !! (i mod B)%nat).
Proof.
  intros HB. induction fuel as [|fuel IH]; intros l vs i Hsh Hfuel Hi; [lia|].
  destruct l as [|x l]; [simpl in Hi; lia|].
  cbn [chunks_fuel] in Hsh. set (l' := x :: l) in *.
  apply Forall2_cons_inv_l in Hsh as (v & vs' & Hv & Hsh & ->).
  rewrite length_take in Hv. cbn [concat].
  destruct (decide (i < B)%nat) as [Hlt|Hge].
  - rewrite Nat.div_small, Nat.mod_small by done. simpl.
    apply lookup_app_l. lia.
  - assert (length v = B) as HvB by lia.
    rewrite lookup_app_r by lia. rewrite HvB.
    rewrite (IH (drop B l') vs' (i - B)%nat Hsh)
      by (rewrite length_drop; lia).
    assert (i / B = S ((i - B) / B))%nat as ->.
    { replace i with ((i - B) + 1 * B)%nat at 1 by lia.
      rewrite Nat.div_add by lia. lia. }
    assert (i mod B = (i - B) mod B)%nat as ->.
    { replace i with ((i - B) + 1 * B)%nat at 1 by lia.
      by rewrite Nat.Div0.mod_add. }
    done.
Qed.

Lemma lookup_chunks {A} (B : nat) (l : list A) (i : nat) :
  (0 < B)%nat -> (i < length l)%nat ->
  l !! i = chunks B l !! (i / B)%nat ≫= (fun c => c !! (i mod B)%nat).
Proof.
  intros HB Hi. rewrite <- (concat_chunks B l HB) at 1.
  apply (lookup_concat_shaped B (length l) HB l); [|done|done].
  apply Forall2_same_length_lookup_2; [done|].
  intros k c c' H1 H2. unfold chunks in *. rewrite H1 in H2. by injection H2 as ->.
Qed.

(** For a positive step the loop of [embed] visits the chunks. *)
Lemma range_slices (payload : list string) (b : Z) :
  0 < b ->
  exists indices,
    py_range 0 (Z.of_nat (length payload)) b = Ok indices
    /\ (fun i => py_slice payload i (i + b)) <$> indices
       = chunks (Z.to_nat b) payload.
Proof.
  intros Hb. unfold py_range.
  destruct (Z.eqb_spec b 0) as [|_]; [lia|].
  eexists; split; [done|].
  rewrite <- (Z2Nat.id b) by lia. set (B := Z.to_nat b).
  assert (0 < B)%nat by lia. rewrite Nat2Z.id.
  rewrite range_length_pos, chunks_blocks by done.
  rewrite <- list_fmap_compose. apply list_fmap_ext. intros _ k _. simpl.
  rewrite <- Nat2Z.inj_mul. apply py_slice_block.
Qed.

(** For a negative step the loop visits nothing. *)
Lemma range_negative (n : nat) (b : Z) :
  b < 0 -> py_range 0 (Z.of_nat n) b = Ok [].
Proof.
  intros Hb. unfold py_range.
  destruct (Z.eqb_spec b 0) as [|_]; [lia|].
  by rewrite range_length_neg by lia.
Qed.

Lemma range_zero (n : Z) :
  py_range 0 n 0 = Raise (ValueError "range() arg 3 must not be zero").
Proof. done. Qed.

(** ** Acquiring the handle, one caller *)

(** Opening [_load_llama] down to the calls to the collaborators. *)
Ltac unfold_load :=
  unfold _load_llama, _download_model, bind, get_instance, ret, call_mkdir,
    call_hf_hub_download, call_Llama, set_model_path, set_instance,
    record_event.

Lemma compute_calls_app (evs1 evs2 : list Event) :
  compute_calls (evs1 ++ evs2) = compute_calls evs1 ++ compute_calls evs2.
Proof. unfold compute_calls. apply omap_app. Qed.

Lemma compute_calls_call_events (llama : Llama) (kwargs : Kwargs)
    (calls : list (list string * result Response)) :
  compute_calls (call_event llama kwargs <$> calls)
  = (fun c => (fst c, kwargs, snd c)) <$> calls.
Proof.
  induction calls as [|c calls IH]; [done|].
  rewrite !fmap_cons. rewrite <- IH. reflexivity.
Qed.

(** With a cached handle [_load_llama] returns it and touches nothing. *)
Lemma _load_llama_cached (w : World) (h : Llama) :
  _instance w = Some h -> _load_llama w = (w, Ok h).
Proof. intros Hi. unfold _load_llama, bind, get_instance, ret. by rewrite Hi. Qed.

(** What one call of [_load_llama] does to the state. *)
Lemma _load_llama_spec (w : World) :
  exists evs,
    trace (fst (_load_llama w)) = trace w ++ evs
    /\ log (fst (_load_llama w)) = log w
    /\ compute_calls evs = []
    /\ match snd (_load_llama w) with
       | Ok h =>
           _instance (fst (_load_llama w)) = Some h
           /\ (_instance w = Some h /\ evs = []
               \/ _instance w = None /\ constructions evs = [Ok h]
                  /\ length (downloads evs) = 1%nat)
       | Raise e =>
           _instance w = None
           /\ _instance (fst (_load_llama w)) = None
           /\ (constructions evs = [] \/ constructions evs = [Raise e])
       end.
Proof.
  destruct (_instance w) as [h|] eqn:Hi.
  - rewrite (_load_llama_cached w h Hi). exists []. simpl.
    rewrite app_nil_r. repeat split; auto.
  - unfold_load.
    cbn. rewrite !Hi.
    destruct (mkdir (trace w) (model_cache_dir settings)) as [[]|e] eqn:Hmk; cbn.
    2:{ eexists [_]. cbn. repeat split; auto. }
    destruct (hf_hub_download _ _ _ _) as [p|e] eqn:Hdl; cbn.
    2:{ eexists [_; _]. cbn. rewrite <- app_assoc. repeat split; auto. }
    destruct (construct _ _) as [h|e] eqn:Hc; cbn.
    + eexists [_; _; _]. cbn. rewrite <- !app_assoc. cbn.
      repeat split; auto; right; repeat split; auto.
    + eexists [_; _; _]. cbn. rewrite <- !app_assoc. cbn.
      repeat split; auto.
Qed.

(** ** [embed] *)

Lemma configured_pooling :
  dict_get POOLING_OPTIONS (pooling_name (embedding_pooling settings))
    POOLING_OPTIONS_mean
  = pooling_value (embedding_pooling settings).
Proof.
  unfold POOLING_OPTIONS, pooling_value.
  destruct pooling_enum_importable, (embedding_pooling settings); reflexivity.
Qed.

(** A failure to acquire the handle is the outcome of [embed]. *)
Lemma embed_load_raises (inputs : Inputs) (normalize : bool) (b : option Z)
    (w w1 : World) (e : PyException) :
  _load_llama w = (w1, Raise e) -> embed inputs normalize b w = (w1, Raise e).
Proof. intros Hl. unfold embed, bind. by rewrite Hl. Qed.

(** [embed] once the handle is acquired: the calls it makes, on which
    chunks, and what it returns. *)
Lemma embed_spec (inputs : Inputs) (normalize : bool) (b : option Z)
    (w w1 : World) (llama : Llama) :
  _load_llama w = (w1, Ok llama) ->
  let payload := _ensure_iterable inputs in
  let kwargs := kwargs_of normalize (pooling_value (embedding_pooling settings)) in
  exists calls : list (list string * result Response),
    fst (embed inputs normalize b w)
    = add_events (call_event llama kwargs <$> calls) w1
    /\ Forall (fun c => exists tr, snd c = create_embedding tr llama (fst c) kwargs)
              calls
    /\ fst <$> calls
       = take (length calls) (sub_batches payload (resolved_batch_of b))
    /\ match snd (embed inputs normalize b w) with
       | Ok res =>
           length calls = length (sub_batches payload (resolved_batch_of b))
           /\ exists resps,
                snd <$> calls = Ok <$> resps
                /\ res = concat (chunk_embeddings_of <$> resps)
       | Raise e =>
           (exists resps, snd <$> calls = (Ok <$> resps) ++ [Raise e])
           \/ (calls = [] /\ payload <> [] /\ resolved_batch_of b = 0
               /\ e = ValueError "range() arg 3 must not be zero")
       end.
Proof.
  intros Hl payload kwargs. unfold embed, bind. rewrite Hl.
  fold payload. rewrite configured_pooling. fold kwargs.
  destruct payload as [|s payload'] eqn:Hp.
  { exists []. cbn. rewrite add_events_nil. repeat split; auto.
    - unfold sub_batches. by destruct (0 <? _).
    - by exists []. }
  rewrite <- Hp. set (rb := resolved_batch_of b).
  destruct (Z.lt_trichotomy rb 0) as [Hneg|[Hz|Hpos]].
  - unfold lift. rewrite range_negative by done. cbn.
    exists []. cbn. rewrite add_events_nil. unfold sub_batches.
    destruct (Z.ltb_spec 0 rb); [lia|]. repeat split; auto. by exists [].
  - unfold lift. rewrite Hz, range_zero. cbn.
    exists []. cbn. rewrite add_events_nil. repeat split; auto.
    right. repeat split; auto. by rewrite Hp.
  - destruct (range_slices payload rb Hpos) as (indices & Hr & Hs).
    unfold lift. rewrite Hr.
    destruct (embed_loop_spec llama payload rb kwargs indices [] w1)
      as (calls & Hw & Hch & Hor & Hres).
    exists calls. unfold sub_batches. destruct (Z.ltb_spec 0 rb); [|lia].
    rewrite <- Hs. split; [done|]. split; [done|]. split; [done|].
    destruct (snd (embed_loop _ _ _ _ _ _ _)) as [res|e].
    + destruct Hres as (Hlen & resps & Hsn & ->). rewrite length_fmap.
      split; [done|]. by exists resps.
    + by left.
Qed.

Lemma resolved_batch_positive (b : option Z) :
  0 < max_batch_size settings -> batch_size_ge_1 b -> 0 < resolved_batch_of b.
Proof.
  intros Hmax Hb. unfold resolved_batch_of. rewrite py_or_positive by done.
  destruct b as [n|]; simpl in Hb; lia.
Qed.

Lemma calls_lookup {A B} (calls : list (A * result B)) (cs : list A)
    (resps : list B) (k : nat) (c : A) (resp : B) :
  fst <$> calls = cs -> snd <$> calls = Ok <$> resps ->
  cs !! k = Some c -> resps !! k = Some resp ->
  calls !! k = Some (c, Ok resp).
Proof.
  intros Hf Hs Hc Hr.
  assert ((fst <$> calls) !! k = Some c) as H1 by by rewrite Hf.
  assert ((snd <$> calls) !! k = Some (Ok resp)) as H2
    by by rewrite Hs, list_lookup_fmap, Hr.
  rewrite list_lookup_fmap in H1. rewrite list_lookup_fmap in H2.
  destruct (calls !! k) as [[c' r']|]; simpl in *; [|done].
  by injection H1 as ->; injection H2 as ->.
Qed.

Lemma concat_length_shaped {A V} (cs : list (list A)) (vs : list (list V)) :
  Forall2 (fun c v => length v = length c) cs vs ->
  length (concat vs) = length (concat cs).
Proof.
  induction 1 as [|c v cs vs Hcv _ IH]; [done|].
  simpl. rewrite !length_app. lia.
Qed.

(** When every entry carries a vector nothing is dropped. *)
Lemma chunk_embeddings_all (resp : Response) :
  Forall (fun item : gmap string Vec => is_Some (item !! "embedding")) (data resp) ->
  Some <$> chunk_embeddings_of resp
  = (fun item : gmap string Vec => item !! "embedding") <$> data resp.
Proof.
  unfold chunk_embeddings_of. induction 1 as [|item items [v Hv] _ IH]; [done|].
  cbn. rewrite Hv. cbn. by rewrite IH.
Qed.

(** What [embed] keeps of a response, said with [filter]: the entries'
    vectors, in response order, without the entries that have none. *)
Lemma chunk_embeddings_filter (resp : Response) :
  Some <$> chunk_embeddings_of resp
  = filter is_Some ((fun item : gmap string Vec => item !! "embedding") <$> data resp).
Proof.
  unfold chunk_embeddings_of. induction (data resp) as [|item items IH]; [done|].
  rewrite fmap_cons. cbn [omap list_omap].
  destruct (item !! "embedding") as [v|] eqn:Hv.
  - rewrite fmap_cons, filter_cons_True by done. by rewrite <- IH.
  - rewrite filter_cons_False by (by intros []). exact IH.
Qed.

Lemma chunk_embeddings_length (resp : Response) :
  (length (chunk_embeddings_of resp) <= length (data resp))%nat.
Proof.
  unfold chunk_embeddings_of. induction (data resp) as [|item items IH]; [done|].
  cbn [omap list_omap]. destruct (item !! "embedding"); simpl in *; lia.
Qed.

Lemma chunk_embeddings_dropped (resp : Response) (item : gmap string Vec) :
  item ∈ data resp -> item !! "embedding" = None ->
  (length (chunk_embeddings_of resp) < length (data resp))%nat.
Proof.
  pose proof (chunk_embeddings_length resp) as Hle. revert Hle.
  unfold chunk_embeddings_of.
  destruct resp as [items]. cbn [data].
  induction items as [|it items IH]; intros Hle Hin Hn.
  - by apply elem_of_nil in Hin.
  - pose proof (chunk_embeddings_length {| data := items |}) as Hle'.
    unfold chunk_embeddings_of in Hle'. cbn [data] in Hle'.
    cbn [omap list_omap] in *.
    apply elem_of_cons in Hin as [<-|Hin].
    + rewrite Hn. simpl. lia.
    + specialize (IH Hle' Hin Hn).
      destruct (it !! "embedding"); simpl in *; lia.
Qed.

(** ** The claims about [embed] *)

(** The create_embedding calls among the events [embed] adds once the
    handle is acquired. *)
Lemma embed_compute_calls (evs0 : list Event) (llama : Llama) (kwargs : Kwargs)
    (calls : list (list string * result Response)) :
  compute_calls evs0 = [] ->
  compute_calls (evs0 ++ (call_event llama kwargs <$> calls))
  = (fun c => (fst c, kwargs, snd c)) <$> calls.
Proof.
  intros H0. by rewrite compute_calls_app, H0, compute_calls_call_events.
Qed.

(** C1. Order preservation: for a positive configured maximum and a
    requested batch size that is absent or at least 1, when the handle is
    acquired and the engine answers every chunk with one entry per input
    string, each carrying a vector, [embed] returns as many vectors as there
    are inputs, and the vector at index [i] is the one the engine gave for
    [inputs[i]]: the entry at position [i mod B] of the answer to call
    number [i / B], whose chunk holds [inputs[i]] at that position ([B] is
    the sub-batch size). *)
Theorem embed_preserves_order (inputs : list string) (normalize : bool)
    (b : option Z) (w : World) :
  0 < max_batch_size settings ->
  batch_size_ge_1 b ->
  is_Ok (snd (_load_llama w)) ->
  (forall tr llama chunk kwargs, exists resp,
      create_embedding tr llama chunk kwargs = Ok resp
      /\ length (data resp) = length chunk
      /\ Forall (fun item : gmap string Vec => is_Some (item !! "embedding"))
                (data resp)) ->
  exists evs res,
    trace (fst (embed (InSeq inputs) normalize b w)) = trace w ++ evs
    /\ snd (embed (InSeq inputs) normalize b w) = Ok res
    /\ length res = length inputs
    /\ forall i s, inputs !! i = Some s ->
         let B := Z.to_nat (resolved_batch_of b) in
         exists chunk kwargs resp item v,
           compute_calls evs !! (i / B)%nat = Some (chunk, kwargs, Ok resp)
           /\ chunk !! (i mod B)%nat = Some s
           /\ data resp !! (i mod B)%nat = Some item
           /\ item !! "embedding" = Some v
           /\ res !! i = Some v.
Proof.
  intros Hmax Hb Hok Hengine.
  pose proof (resolved_batch_positive b Hmax Hb) as Hpos.
  destruct (_load_llama w) as [w1 [llama|e]] eqn:Hl; [|done].
  destruct (_load_llama_spec w) as (evs0 & Htr0 & _ & Hc0 & _).
  rewrite Hl in Htr0. cbn [fst] in Htr0.
  destruct (embed_spec (InSeq inputs) normalize b w w1 llama Hl)
    as (calls & Hw & Hor & Hch & Hres).
  cbn [_ensure_iterable] in *.
  set (kw := kwargs_of normalize (pooling_value (embedding_pooling settings))) in *.
  set (B := Z.to_nat (resolved_batch_of b)).
  assert (0 < B)%nat as HB by (subst B; lia).
  assert (sub_batches inputs (resolved_batch_of b) = chunks B inputs) as Hsb.
  { unfold sub_batches. by destruct (Z.ltb_spec 0 (resolved_batch_of b)); [|lia]. }
  rewrite Hsb in *.
  (* no call raises *)
  assert (Forall (fun c => exists resp,
                    snd c = Ok resp /\ length (data resp) = length (fst c)
                    /\ Forall (fun item : gmap string Vec =>
                                 is_Some (item !! "embedding")) (data resp))
                 calls) as Hgood.
  { eapply Forall_impl; [exact Hor|]. intros [c r] [tr Hr]. simpl in *.
    destruct (Hengine tr llama c kw) as (resp & Hresp & ?). exists resp.
    by rewrite Hr, Hresp. }
  destruct (snd (embed (InSeq inputs) normalize b w)) as [res|e] eqn:Hsnd.
  2:{ exfalso. destruct Hres as [[resps Hs]|(_ & _ & Hz & _)]; [|lia].
      assert (Raise e ∈ snd <$> calls) as Hin
        by (rewrite Hs; set_solver).
      apply list_elem_of_fmap in Hin as ([c r] & Heq & Hin). simpl in Heq. subst r.
      rewrite Forall_forall in Hgood. destruct (Hgood _ Hin) as (? & ? & _). done. }
  destruct Hres as (Hlen & resps & Hs & Hresv).
  rewrite take_ge in Hch by (rewrite Hlen; lia).
  (* the kept vectors have the shape of the chunks *)
  assert (Forall2 (fun (c : list string) (v : list Vec) => length v = length c)
                  (chunks B inputs) (chunk_embeddings_of <$> resps)) as Hshape.
  { apply Forall2_same_length_lookup_2.
    - rewrite length_fmap. rewrite <- Hlen.
      rewrite <- (length_fmap snd calls), Hs. by rewrite length_fmap.
    - intros k c v Hc Hv. rewrite list_lookup_fmap in Hv.
      destruct (resps !! k) as [resp|] eqn:Hrk; [|done]. injection Hv as <-.
      pose proof (calls_lookup calls _ resps k c resp Hch Hs Hc Hrk) as Hck.
      rewrite Forall_forall in Hgood.
      destruct (Hgood _ (list_elem_of_lookup_2 _ _ _ Hck))
        as (resp' & [= <-] & Hl' & Hall). simpl in Hl'.
      rewrite <- Hl'. rewrite <- (length_fmap Some).
      rewrite chunk_embeddings_all by done. by rewrite length_fmap. }
  exists (evs0 ++ (call_event llama kw <$> calls)), res.
  split; [|split; [|split]].
  - rewrite Hw. unfold add_events. cbn [trace]. by rewrite Htr0, <- app_assoc.
  - done.
  - rewrite Hresv, (concat_length_shaped _ _ Hshape). by rewrite concat_chunks.
  - intros i s His. cbn zeta. fold B.
    pose proof (lookup_lt_Some _ _ _ His) as Hi.
    rewrite (lookup_chunks B inputs i HB Hi) in His.
    destruct (chunks B inputs !! (i / B)%nat) as [chunk|] eqn:Hck; [|done].
    simpl in His.
    destruct (Forall2_lookup_l _ _ _ _ _ Hshape Hck) as (vblk & Hvb & Hvl).
    pose proof Hvb as Hvb'. rewrite list_lookup_fmap in Hvb'.
    destruct (resps !! (i / B)%nat) as [resp|] eqn:Hrk; [|done].
    injection Hvb' as <-.
    pose proof (calls_lookup calls _ resps _ chunk resp Hch Hs Hck Hrk) as Hcall.
    rewrite Forall_forall in Hgood.
    destruct (Hgood _ (list_elem_of_lookup_2 _ _ _ Hcall))
      as (resp' & [= <-] & Hl' & Hall). simpl in Hl'.
    assert (i mod B < length (chunk_embeddings_of resp))%nat as Hj
      by (rewrite Hvl; by eapply lookup_lt_Some).
    destruct (lookup_lt_is_Some_2 _ _ Hj) as [v Hv].
    assert ((Some <$> chunk_embeddings_of resp) !! (i mod B)%nat = Some (Some v)) as Hsv
      by by rewrite list_lookup_fmap, Hv.
    rewrite chunk_embeddings_all in Hsv by done.
    rewrite list_lookup_fmap in Hsv.
    destruct (data resp !! (i mod B)%nat) as [item|] eqn:Hitem; [|done].
    injection Hsv as Hemb.
    exists chunk, kw, resp, item, v. split; [|split; [|split; [|split]]]; auto.
    + rewrite embed_compute_calls by done.
      by rewrite list_lookup_fmap, Hcall.
    + rewrite Hresv.
      rewrite (lookup_concat_shaped B (length inputs) HB inputs _ i Hshape) by done.
      by rewrite Hvb.
Qed.

Lemma passed_chunks_calls (evs0 : list Event) (llama : Llama) (kwargs : Kwargs)
    (calls : list (list string * result Response)) :
  compute_calls evs0 = [] ->
  passed_chunks (evs0 ++ (call_event llama kwargs <$> calls)) = fst <$> calls.
Proof.
  intros H0. unfold passed_chunks. rewrite embed_compute_calls by done.
  rewrite <- list_fmap_compose. by apply list_fmap_ext.
Qed.

(** The events one [embed] call adds: those of the acquisition, which
    hold no [create_embedding] call, then the loop's. *)
Lemma embed_events (inputs : Inputs) (normalize : bool) (b : option Z) (w : World) :
  exists evs,
    trace (fst (embed inputs normalize b w)) = trace w ++ evs
    /\ log (fst (embed inputs normalize b w)) = log w
    /\ _instance (fst (embed inputs normalize b w)) = _instance (fst (_load_llama w))
    /\ match snd (_load_llama w) with
       | Raise e => compute_calls evs = []
       | Ok llama =>
           exists evs0 calls,
             evs = evs0 ++ (call_event llama
                              (kwargs_of normalize
                                 (pooling_value (embedding_pooling settings)))
                            <$> calls)
             /\ compute_calls evs0 = []
             /\ Forall (fun c => exists tr,
                          snd c = create_embedding tr llama (fst c)
                                    (kwargs_of normalize
                                       (pooling_value (embedding_pooling settings))))
                       calls
             /\ fst <$> calls
                = take (length calls)
                    (sub_batches (_ensure_iterable inputs) (resolved_batch_of b))
             /\ match snd (embed inputs normalize b w) with
                | Ok res =>
                    length calls
                    = length (sub_batches (_ensure_iterable inputs)
                                (resolved_batch_of b))
                    /\ exists resps,
                         snd <$> calls = Ok <$> resps
                         /\ res = concat (chunk_embeddings_of <$> resps)
                | Raise e =>
                    (exists resps, snd <$> calls = (Ok <$> resps) ++ [Raise e])
                    \/ (calls = [] /\ _ensure_iterable inputs <> []
                        /\ resolved_batch_of b = 0
                        /\ e = ValueError "range() arg 3 must not be zero")
                end
       end.
Proof.
  destruct (_load_llama_spec w) as (evs0 & Htr0 & Hlog0 & Hc0 & _).
  destruct (_load_llama w) as [w1 [llama|e]] eqn:Hl; cbn [fst snd] in *.
  - destruct (embed_spec inputs normalize b w w1 llama Hl)
      as (calls & Hw & Hor & Hch & Hres). cbn zeta in *.
    eexists. rewrite Hw. unfold add_events. cbn [trace log _instance].
    rewrite Htr0, <- app_assoc. split; [done|]. split; [done|]. split; [done|].
    exists evs0, calls. by repeat split.
  - rewrite (embed_load_raises inputs normalize b w w1 e Hl). cbn [fst snd].
    by exists evs0.
Qed.

(** C3. Sub-batch size and partition: for a positive configured maximum and
    a requested size that is absent or at least 1, the sub-batch size of
    [embed] is [min(requested if provided else maximum, maximum)], it is
    positive and at most the maximum; the chunks are contiguous, in order,
    non-empty, and together they are the inputs; every chunk handed to
    [create_embedding] has at most that many elements, the chunks handed
    over are the first chunks in order, and all of them when the call
    succeeds.  [embed] hands over every chunk unless a collaborator stops
    it: when the handle is acquired and no [create_embedding] call of the
    run raises, the call succeeds and the chunks handed over are all the
    chunks, each once and in order; when [embed] raises [e], either the
    acquisition raised [e] and nothing was handed over, or the last
    [create_embedding] call raised [e], every call before it returned, and
    at least one chunk was handed over. *)
Theorem embed_sub_batch_size (inputs : Inputs) (normalize : bool)
    (b : option Z) (w : World) :
  0 < max_batch_size settings ->
  batch_size_ge_1 b ->
  let payload := _ensure_iterable inputs in
  let rb := resolved_batch_of b in
  rb = effective_batch_spec b (max_batch_size settings)
  /\ 0 < rb <= max_batch_size settings
  /\ concat (chunks (Z.to_nat rb) payload) = payload
  /\ Forall (fun c => (0 < length c)%nat) (chunks (Z.to_nat rb) payload)
  /\ exists evs,
       trace (fst (embed inputs normalize b w)) = trace w ++ evs
       /\ Forall (fun c => Z.of_nat (length c) <= rb) (passed_chunks evs)
       /\ passed_chunks evs `prefix_of` chunks (Z.to_nat rb) payload
       /\ (is_Ok (snd (embed inputs normalize b w)) ->
           passed_chunks evs = chunks (Z.to_nat rb) payload)
       /\ (is_Ok (snd (_load_llama w)) ->
           Forall (fun c => is_Ok (snd c)) (compute_calls evs) ->
           is_Ok (snd (embed inputs normalize b w))
           /\ passed_chunks evs = chunks (Z.to_nat rb) payload)
       /\ (forall e, snd (embed inputs normalize b w) = Raise e ->
           (snd (_load_llama w) = Raise e /\ passed_chunks evs = [])
           \/ (is_Ok (snd (_load_llama w))
               /\ passed_chunks evs <> []
               /\ exists resps,
                    (fun c => snd c) <$> compute_calls evs
                    = (Ok <$> resps) ++ [Raise e])).
Proof.
  intros Hmax Hb payload rb.
  pose proof (resolved_batch_positive b Hmax Hb) as Hpos. fold rb in Hpos.
  assert (0 < Z.to_nat rb)%nat as HB by lia.
  pose proof (chunks_bounds (Z.to_nat rb) payload HB) as Hbounds.
  assert (sub_batches payload rb = chunks (Z.to_nat rb) payload) as Hsb.
  { unfold sub_batches. by destruct (Z.ltb_spec 0 rb); [|lia]. }
  split; [|split; [|split; [|split]]].
  - unfold rb, resolved_batch_of, effective_batch_spec.
    by rewrite py_or_positive.
  - unfold rb, resolved_batch_of in *. lia.
  - by apply concat_chunks.
  - eapply Forall_impl; [exact Hbounds|]. simpl. lia.
  - destruct (embed_events inputs normalize b w) as (evs & Htr & _ & _ & Hev).
    exists evs. split; [done|].
    destruct (_load_llama w) as [w1 [llama|e0]] eqn:Hl; cbn [snd] in Hev |- *.
    + destruct Hev as (evs0 & calls & -> & Hc0 & _ & Hch & Hres).
      fold payload rb in Hch, Hres. rewrite Hsb in Hch, Hres.
      rewrite passed_chunks_calls, embed_compute_calls by done.
      assert ((fun c : list string * Kwargs * result Response => snd c)
              <$> ((fun c : list string * result Response =>
                      (fst c,
                       kwargs_of normalize
                         (pooling_value (embedding_pooling settings)),
                       snd c)) <$> calls)
              = snd <$> calls) as Hout.
      { rewrite <- list_fmap_compose. by apply list_fmap_ext. }
      rewrite Hch.
      split; [|split; [|split; [|split]]].
      * apply Forall_take. eapply Forall_impl; [exact Hbounds|]. simpl. lia.
      * apply prefix_take.
      * intros Hok. destruct (snd (embed inputs normalize b w)); [|done].
        destruct Hres as (Hlen & _). rewrite take_ge; [done|lia].
      * intros _ Hall.
        destruct (snd (embed inputs normalize b w)) as [res|e].
        -- destruct Hres as (Hlen & _). split; [done|].
           rewrite take_ge; [done|lia].
        -- exfalso. destruct Hres as [[resps Hs]|(_ & _ & Hz & _)]; [|lia].
           apply (Forall_fmap (fun c => snd c) is_Ok) in Hall.
           rewrite Hout, Hs in Hall.
           apply Forall_app in Hall as [_ Hall].
           by apply Forall_cons in Hall as [Hall _].
      * intros e He. right. split; [done|]. rewrite He in Hres.
        destruct Hres as [[resps Hs]|(_ & _ & Hz & _)]; [|lia].
        split; [|exists resps; by rewrite Hout].
        rewrite <- Hch. intros Hnil. apply fmap_nil_inv in Hnil. subst calls.
        by destruct resps.
    + rewrite (embed_load_raises inputs normalize b w w1 e0 Hl). cbn [snd].
      unfold passed_chunks. rewrite Hev. cbn.
      split; [constructor|]. split; [apply prefix_nil|].
      split; [done|]. split; [done|].
      intros e [= <-]. by left.
Qed.

(** Outside these bounds: [batch_size = 0] counts as absent, a negative
    sub-batch size makes the loop visit nothing, and a zero one makes
    [range] raise. *)
Lemma resolved_batch_zero_request :
  resolved_batch_of (Some 0) = resolved_batch_of None.
Proof. reflexivity. Qed.

Lemma embed_negative_batch (inputs : Inputs) (normalize : bool) (b : option Z)
    (w : World) :
  is_Ok (snd (_load_llama w)) ->
  resolved_batch_of b < 0 ->
  snd (embed inputs normalize b w) = Ok [].
Proof.
  intros Hok Hneg.
  destruct (_load_llama w) as [w1 [llama|e]] eqn:Hl; [|done].
  destruct (embed_spec inputs normalize b w w1 llama Hl)
    as (calls & _ & _ & Hch & Hres). cbn zeta in *.
  unfold sub_batches in *.
  destruct (Z.ltb_spec 0 (resolved_batch_of b)); [lia|].
  rewrite take_nil in Hch. apply fmap_nil_inv in Hch. subst calls.
  destruct (snd (embed inputs normalize b w)) as [res|e].
  - destruct Hres as (_ & resps & Hs & ->).
    symmetry in Hs. apply fmap_nil_inv in Hs. by subst resps.
  - destruct Hres as [[resps Hs]|(_ & _ & Hz & _)]; [|lia].
    by destruct resps.
Qed.

Lemma embed_zero_batch (inputs : Inputs) (normalize : bool) (b : option Z)
    (w : World) :
  is_Ok (snd (_load_llama w)) ->
  _ensure_iterable inputs <> [] ->
  resolved_batch_of b = 0 ->
  snd (embed inputs normalize b w)
  = Raise (ValueError "range() arg 3 must not be zero").
Proof.
  intros Hok Hne Hz.
  destruct (_load_llama w) as [w1 [llama|e]] eqn:Hl; [|done].
  unfold embed, bind, lift. rewrite Hl, Hz.
  by destruct (_ensure_iterable inputs).
Qed.

Lemma embed_normalized_inputs (raw : Inputs) (normalize : bool) (b : option Z) :
  embed (InSeq (_normalize_inputs raw)) normalize b = embed raw normalize b.
Proof. by destruct raw. Qed.

(** C4. No partial success: when a [create_embedding] call of an [embed]
    call raises, [embed] raises that exception and returns no vectors, also
    when earlier chunks were answered; the route handler then raises one
    [HTTPException] with status 500 and returns no body. *)
Theorem compute_failure_fails_whole_call (request : EmbeddingRequest)
    (w : World) (evs : list Event) (chunk : list string) (kwargs : Kwargs)
    (e : PyException) :
  let call := embed (req_input request) (req_normalize request)
                (req_batch_size request) w in
  trace (fst call) = trace w ++ evs ->
  (chunk, kwargs, Raise e) ∈ compute_calls evs ->
  snd call = Raise e
  /\ snd (create_embeddings request w)
     = HTTPException 500 ("Embedding failure: " +:+ exc_str e).
Proof.
  intros call Htr Hin.
  assert (snd call = Raise e) as Hcall.
  { subst call.
    destruct (embed_events (req_input request) (req_normalize request)
                (req_batch_size request) w) as (evs' & Htr' & _ & _ & Hev).
    rewrite Htr' in Htr. apply app_inv_head in Htr. subst evs'.
    destruct (snd (_load_llama w)) as [llama|e0].
    2:{ rewrite Hev in Hin. by apply elem_of_nil in Hin. }
    destruct Hev as (evs0 & calls & -> & Hc0 & _ & _ & Hres).
    rewrite embed_compute_calls in Hin by done.
    apply list_elem_of_fmap in Hin as ([c r] & Heq & Hin).
    cbn [fst snd] in Heq. injection Heq as ? ? ?. subst c r.
    assert (Raise e ∈ snd <$> calls) as Hr
      by (apply list_elem_of_fmap; by exists (chunk, Raise e)).
    destruct (snd (embed _ _ _ w)) as [res|e'].
    - destruct Hres as (_ & resps & Hs & _). rewrite Hs in Hr.
      apply list_elem_of_fmap in Hr as (? & ? & _). done.
    - destruct Hres as [[resps Hs]|(-> & _)].
      + rewrite Hs in Hr. apply elem_of_app in Hr as [Hr|Hr].
        * apply list_elem_of_fmap in Hr as (? & ? & _). done.
        * apply list_elem_of_singleton in Hr. by injection Hr as ->.
      + by apply elem_of_nil in Hin. }
  split; [done|].
  unfold create_embeddings. rewrite embed_normalized_inputs.
  subst call. destruct (embed _ _ _ w) as [w1 r]. cbn [snd] in *.
  by subst r.
Qed.

(** C5. A failed acquisition is not cached: when [_load_llama] raises, the
    exception is the outcome of the [embed] call that asked for the handle,
    [_instance] is still unset, and the next [_load_llama] starts the slow
    path again with a new call to the collaborators; if they answer this
    time it returns a new handle and caches it.  Under contention a caller
    that leaves by an exception releases the lock and leaves [_instance] as
    it was. *)
Theorem failed_load_is_retried (w w1 : World) (e : PyException) :
  _load_llama w = (w1, Raise e) ->
  _instance w1 = None
  /\ (forall inputs normalize b, embed inputs normalize b w = (w1, Raise e))
  /\ (exists r evs,
        trace (fst (_load_llama w1))
        = trace w1 ++ EvMkdir (model_cache_dir settings) r :: evs)
  /\ (forall p,
        mkdir (trace w1) (model_cache_dir settings) = Ok tt ->
        hf_hub_download (trace w1 ++ [EvMkdir (model_cache_dir settings) (Ok tt)])
          (model_repo_id settings) (model_file settings)
          (model_cache_dir settings) = Ok p ->
        Llama_init
          (trace w1 ++ [EvMkdir (model_cache_dir settings) (Ok tt);
                        EvDownload (model_repo_id settings) (model_file settings)
                          (model_cache_dir settings) (Ok p)])
          (llama_args_of p) = Ok tt ->
        exists h,
          snd (_load_llama w1) = Ok h
          /\ _instance (fst (_load_llama w1)) = Some h
          /\ llama_args h = llama_args_of p)
  /\ (forall i pc w0 lk w0' lk' e',
        thread_step i pc w0 lk = Some (PRaised e', w0', lk') ->
        lk' = None /\ _instance w0' = _instance w0).
Proof.
  intros Hl.
  destruct (_load_llama_spec w) as (evs & _ & _ & _ & Hres).
  rewrite Hl in Hres. cbn [fst snd] in Hres. destruct Hres as (_ & Hi1 & _).
  split; [done|]. split; [|split; [|split]].
  - intros. by apply embed_load_raises.
  - unfold_load.
    cbn. rewrite !Hi1.
    destruct (mkdir (trace w1) (model_cache_dir settings)) as [[]|e1]; cbn;
      [|by eexists _, []].
    destruct (hf_hub_download _ _ _ _) as [p|e1]; cbn;
      [|rewrite <- app_assoc; by eexists _, [_]].
    destruct (construct _ _) as [h|e1]; cbn;
      rewrite <- !app_assoc; by eexists _, [_; _].
  - intros p Hmk Hdl Hinit.
    unfold_load; unfold construct.
    cbn. rewrite !Hi1, Hmk. cbn. rewrite Hdl. cbn.
    rewrite <- app_assoc. cbn. rewrite Hinit. cbn. by eexists.
  - intros i pc w0 lk w0' lk' e' Hstep.
    destruct pc; cbn in Hstep; try done.
    + by destruct (_instance w0).
    + by destruct lk.
    + by destruct (_instance w0).
    + destruct (mkdir _ _); by simplify_eq.
    + destruct (hf_hub_download _ _ _ _); by simplify_eq.
    + destruct (construct _ _); by simplify_eq.
Qed.

(** C6 (as the code has it). [embed] on an empty sequence first acquires
    the handle, constructing it when none is cached; it makes no
    [create_embedding] call, changes the state as the acquisition alone
    does, and returns the empty list when the acquisition succeeds; when
    the acquisition raises, so does [embed]. *)
Theorem embed_empty_inputs (normalize : bool) (b : option Z) (w : World) :
  fst (embed (InSeq []) normalize b w) = fst (_load_llama w)
  /\ snd (embed (InSeq []) normalize b w)
     = match snd (_load_llama w) with
       | Ok _ => Ok []
       | Raise e => Raise e
       end
  /\ exists evs,
       trace (fst (embed (InSeq []) normalize b w)) = trace w ++ evs
       /\ compute_calls evs = [].
Proof.
  destruct (_load_llama_spec w) as (evs & Htr & _ & Hc & _).
  unfold embed, bind. destruct (_load_llama w) as [w1 [llama|e]]; cbn in *.
  - split; [done|]. split; [done|]. by exists evs.
  - split; [done|]. split; [done|]. by exists evs.
Qed.

(** The vectors kept over the answers of a successful call are no more
    than the strings sent, and fewer when an entry was dropped. *)
Lemma kept_vectors_length (calls : list (list string * result Response))
    (resps : list Response) :
  snd <$> calls = Ok <$> resps ->
  Forall (fun c => forall resp, snd c = Ok resp ->
                   (length (data resp) <= length (fst c))%nat) calls ->
  (length (concat (chunk_embeddings_of <$> resps))
   <= length (concat (fst <$> calls)))%nat
  /\ ((exists resp item,
         resp ∈ resps /\ item ∈ data resp /\ item !! "embedding" = None) ->
      (length (concat (chunk_embeddings_of <$> resps))
       < length (concat (fst <$> calls)))%nat).
Proof.
  revert resps. induction calls as [|[c r] calls IH]; intros resps Hs Hb.
  - destruct resps; [|done]. split; [done|].
    intros (resp & item & Hin & _). by apply elem_of_nil in Hin.
  - destruct resps as [|resp resps]; [done|].
    rewrite !fmap_cons in Hs. injection Hs as Hr Hs. cbn [snd] in Hr. subst r.
    apply Forall_cons in Hb as [Hb1 Hb].
    specialize (Hb1 resp eq_refl). cbn [fst] in Hb1.
    destruct (IH resps Hs Hb) as [IHle IHlt].
    pose proof (chunk_embeddings_length resp) as Hk.
    rewrite !fmap_cons. cbn [concat fst]. rewrite !length_app.
    split; [lia|].
    intros (resp' & item & Hin & Hitem & Hnone).
    apply elem_of_cons in Hin as [->|Hin].
    + pose proof (chunk_embeddings_dropped resp item Hitem Hnone). lia.
    + assert (length (concat (chunk_embeddings_of <$> resps))
              < length (concat (fst <$> calls)))%nat
        by (apply IHlt; eauto).
      lia.
Qed.

Lemma concat_take_length {A} (n : nat) (ls : list (list A)) :
  (length (concat (take n ls)) <= length (concat ls))%nat.
Proof.
  rewrite <- (take_drop n ls) at 2. rewrite concat_app, length_app. lia.
Qed.

Lemma sub_batches_length (payload : list string) (rb : Z) :
  (length (concat (sub_batches payload rb)) <= length payload)%nat.
Proof.
  unfold sub_batches. destruct (Z.ltb_spec 0 rb); [|simpl; lia].
  rewrite concat_chunks by lia. done.
Qed.

(** C7. Entries without a vector are dropped, not padded and not an
    error: for a positive configured maximum and a requested size that is
    absent or at least 1, when the handle is acquired and no
    [create_embedding] call of the run raises, [embed] succeeds whatever the
    answers hold, after handing over every chunk; its result is, answer
    after answer in call order, the vectors of the entries that carry an
    ["embedding"], in the order of the answer, and nothing stands for an
    entry that has none.  Hence, when no answer has more entries than its
    chunk has strings and some entry has no vector, the result is shorter
    than the inputs, and some input has no vector at its index. *)
Theorem embed_drops_entries_without_vector (inputs : Inputs) (normalize : bool)
    (b : option Z) (w : World) (evs : list Event) :
  0 < max_batch_size settings ->
  batch_size_ge_1 b ->
  is_Ok (snd (_load_llama w)) ->
  trace (fst (embed inputs normalize b w)) = trace w ++ evs ->
  Forall (fun c => is_Ok (snd c)) (compute_calls evs) ->
  exists (resps : list Response) (kept : list (list Vec)),
    (fun c => snd c) <$> compute_calls evs = Ok <$> resps
    /\ passed_chunks evs
       = chunks (Z.to_nat (resolved_batch_of b)) (_ensure_iterable inputs)
    /\ snd (embed inputs normalize b w) = Ok (concat kept)
    /\ Forall2 (fun (resp : Response) (vs : list Vec) =>
                  Some <$> vs
                  = filter is_Some
                      ((fun item : gmap string Vec => item !! "embedding")
                       <$> data resp))
               resps kept
    /\ (Forall (fun c => forall resp, snd c = Ok resp ->
                  (length (data resp) <= length (fst (fst c)))%nat)
               (compute_calls evs) ->
        (exists resp item,
           resp ∈ resps /\ item ∈ data resp /\ item !! "embedding" = None) ->
        (length (concat kept) < length (_ensure_iterable inputs))%nat
        /\ exists i s,
             _ensure_iterable inputs !! i = Some s /\ concat kept !! i = None).
Proof.
  intros Hmax Hb Hload Htr Hall.
  pose proof (resolved_batch_positive b Hmax Hb) as Hpos.
  destruct (embed_events inputs normalize b w) as (evs' & Htr' & _ & _ & Hev).
  rewrite Htr' in Htr. apply app_inv_head in Htr. subst evs'.
  destruct (_load_llama w) as [w1 [llama|e]] eqn:Hl; cbn [snd] in Hev; [|done].
  destruct Hev as (evs0 & calls & -> & Hc0 & _ & Hch & Hres).
  assert (sub_batches (_ensure_iterable inputs) (resolved_batch_of b)
          = chunks (Z.to_nat (resolved_batch_of b)) (_ensure_iterable inputs))
    as Hsb.
  { unfold sub_batches.
    by destruct (Z.ltb_spec 0 (resolved_batch_of b)); [|lia]. }
  rewrite passed_chunks_calls by done.
  rewrite embed_compute_calls in Hall |- * by done.
  assert ((fun c : list string * Kwargs * result Response => snd c)
          <$> ((fun c : list string * result Response =>
                  (fst c,
                   kwargs_of normalize
                     (pooling_value (embedding_pooling settings)),
                   snd c)) <$> calls)
          = snd <$> calls) as Hout.
  { rewrite <- list_fmap_compose. by apply list_fmap_ext. }
  destruct (snd (embed inputs normalize b w)) as [res|e].
  2:{ exfalso. destruct Hres as [[resps Hs]|(_ & _ & Hz & _)]; [|lia].
      apply (Forall_fmap (fun c => snd c) is_Ok) in Hall.
      rewrite Hout, Hs in Hall.
      apply Forall_app in Hall as [_ Hall].
      by apply Forall_cons in Hall as [Hall _]. }
  destruct Hres as (Hlen & resps & Hs & ->).
  exists resps, (chunk_embeddings_of <$> resps).
  split; [by rewrite Hout|]. split; [|split; [done|split]].
  - rewrite Hch, Hsb. rewrite take_ge; [done|]. rewrite Hlen, Hsb. lia.
  - apply Forall2_fmap_r, Forall_Forall2_diag, Forall_forall.
    intros resp _. apply chunk_embeddings_filter.
  - intros Hbound Hdrop.
    assert (Forall (fun c : list string * result Response =>
                      forall resp, snd c = Ok resp ->
                      (length (data resp) <= length (fst c))%nat) calls) as Hbd.
    { rewrite Forall_fmap in Hbound. eapply Forall_impl; [exact Hbound|].
      by intros [c r]. }
    destruct (kept_vectors_length calls resps Hs Hbd) as [_ Hlt].
    specialize (Hlt Hdrop). rewrite Hch in Hlt.
    pose proof (concat_take_length (length calls)
                  (sub_batches (_ensure_iterable inputs) (resolved_batch_of b))).
    pose proof (sub_batches_length (_ensure_iterable inputs) (resolved_batch_of b)).
    assert (length (concat (chunk_embeddings_of <$> resps))
            < length (_ensure_iterable inputs))%nat as Hshort by lia.
    split; [done|].
    destruct (lookup_lt_is_Some_2 _ _ Hshort) as [s Hs'].
    exists (length (concat (chunk_embeddings_of <$> resps))), s.
    split; [done|]. by apply lookup_ge_None_2.
Qed.

(** C8. Warm-up never stops the start: the code of [lifespan] before
    [yield] always completes without an exception.  It makes one [embed]
    call, on the single string ["warmup"], so at most one chunk, that
    string alone, reaches the engine; it adds one log record, an INFO record
    when the call succeeded and a WARNING record with the exception when it
    raised, and changes nothing else. *)
Theorem lifespan_survives_warmup (w : World) :
  let warm := embed (InSeq ["warmup"]) true None w in
  snd (lifespan w) = Ok tt
  /\ trace (fst (lifespan w)) = trace (fst warm)
  /\ _instance (fst (lifespan w)) = _instance (fst warm)
  /\ log (fst (lifespan w))
     = log w ++ [match snd warm with
                 | Ok _ =>
                     {| log_level := INFO;
                        log_message := "Embedding model loaded successfully." |}
                 | Raise exc =>
                     {| log_level := WARNING;
                        log_message := "Model warmup failed: " +:+ exc_str exc |}
                 end]
  /\ exists evs,
       trace (fst (lifespan w)) = trace w ++ evs
       /\ (passed_chunks evs = [] \/ passed_chunks evs = [["warmup"]]).
Proof.
  intros warm.
  destruct (embed_events (InSeq ["warmup"]) true None w)
    as (evs & Htr & Hlog & _ & Hev).
  fold warm in Htr, Hlog, Hev.
  assert (passed_chunks evs = [] \/ passed_chunks evs = [["warmup"]]) as Hpc.
  { destruct (snd (_load_llama w)) as [llama|e].
    - destruct Hev as (evs0 & calls & -> & Hc0 & _ & Hch & _).
      rewrite passed_chunks_calls by done. rewrite Hch.
      cbn [_ensure_iterable]. unfold sub_batches.
      destruct (Z.ltb_spec 0 (resolved_batch_of None)) as [Hpos|_];
        [|rewrite take_nil; by left].
      destruct (Z.to_nat (resolved_batch_of None)) as [|B'] eqn:HB; [lia|].
      cbn. destruct (length calls); [by left|].
      right. cbn. by rewrite take_nil, take_nil.
    - left. unfold passed_chunks. by rewrite Hev. }
  unfold lifespan, try_except, _warm_model, bind, ret, logger.
  fold warm. destruct warm as [w1 [res|e]] eqn:Hwarm; cbn in *.
  - repeat split; auto; [by rewrite Hlog|]. by exists evs.
  - repeat split; auto; [by rewrite Hlog|]. by exists evs.
Qed.

(** C9 (as the code has it). The pooling strategy is one of mean, cls and
    none, taken from the settings and not from the arguments of [embed]:
    in every [create_embedding] call of every [embed] call, [pooling_type]
    is the engine's value for the configured strategy when the engine's
    [create_embedding] was found at import to accept [pooling_type], and is
    not passed at all when it was not; [normalize] is the caller's flag. *)
Theorem pooling_is_the_configured_one (inputs : Inputs) (normalize : bool)
    (b : option Z) (w : World) :
  (embedding_pooling settings = mean \/ embedding_pooling settings = cls
   \/ embedding_pooling settings = none)
  /\ exists evs,
       trace (fst (embed inputs normalize b w)) = trace w ++ evs
       /\ Forall (fun c =>
                    kw_pooling_type (snd (fst c))
                    = (if _CREATE_EMBEDDING_ACCEPTS_POOLING
                       then Some (pooling_value (embedding_pooling settings))
                       else None)
                    /\ kw_normalize (snd (fst c)) = normalize)
                 (compute_calls evs).
Proof.
  split; [destruct (embedding_pooling settings); auto|].
  destruct (embed_events inputs normalize b w) as (evs & Htr & _ & _ & Hev).
  exists evs. split; [done|].
  destruct (snd (_load_llama w)) as [llama|e].
  - destruct Hev as (evs0 & calls & -> & Hc0 & _).
    rewrite embed_compute_calls by done.
    apply Forall_fmap, Forall_forall. by intros c _.
  - rewrite Hev. constructor.
Qed.

(** C10. A bare string is a batch of one: [embed] on a string [s] is
    [embed] on the list [[s]], whatever the flag and the batch size; the
    payload has one element, the whole string, however long [s] is.  The
    route handler treats a bare string in a request the same way. *)
Theorem embed_bare_string (s : string) (normalize : bool) (b : option Z)
    (w : World) :
  embed (InStr s) normalize b w = embed (InSeq [s]) normalize b w
  /\ _ensure_iterable (InStr s) = [s]
  /\ create_embeddings
       {| req_input := InStr s; req_normalize := normalize; req_batch_size := b |} w
     = create_embeddings
         {| req_input := InSeq [s]; req_normalize := normalize;
            req_batch_size := b |} w.
Proof. repeat split. Qed.

(** ** [_load_llama] under contention *)

Lemma constructed_app (evs1 evs2 : list Event) :
  constructed (evs1 ++ evs2) = constructed evs1 ++ constructed evs2.
Proof. apply omap_app. Qed.

Lemma constructions_app (evs1 evs2 : list Event) :
  constructions (evs1 ++ evs2) = constructions evs1 ++ constructions evs2.
Proof. apply omap_app. Qed.

(** A caller outside the lock knows nothing of the handles built. *)
Lemma pc_ok_outside (inst : option Llama) (built built' : list Llama) (pc : Pc) :
  holds_lock pc = false -> pc_ok inst built pc -> pc_ok inst built' pc.
Proof. by destruct pc. Qed.

(** Nor does it mind that [_instance] gets set. *)
Lemma pc_ok_set (h : Llama) (built built' : list Llama) (pc : Pc) :
  holds_lock pc = false -> pc_ok None built pc -> pc_ok (Some h) built' pc.
Proof. destruct pc; simpl; try done; by intros _ [_ [? ?]] || by intros _ [? ?]. Qed.

Lemma conc_init_inv (n : nat) (w : World) :
  _instance w = None -> conc_inv (trace w) [] (conc_init n w).
Proof.
  intros Hi. split; cbn.
  - by rewrite app_nil_r.
  - intros i pc Hpc. apply lookup_replicate in Hpc as [-> _]. done.
  - done.
  - intros i pc Hpc. apply lookup_replicate in Hpc as [-> _]. done.
  - intros h. by rewrite Hi.
  - by left.
  - done.
Qed.

Lemma lookup_insert_cases (cs : list Pc) (i j : nat) (pc' pcj : Pc) :
  <[i := pc']> cs !! j = Some pcj ->
  (j = i /\ pcj = pc') \/ (j <> i /\ cs !! j = Some pcj).
Proof.
  intros H. apply list_lookup_insert_Some in H.
  destruct H as [(-> & -> & _)|[? ?]]; auto.
Qed.

(** While a caller is inside the lock every other caller is outside. *)
Lemma others_outside (tr0 evs : list Event) (c : Conc) (i j : nat) (pc pcj : Pc) :
  conc_inv tr0 evs c ->
  callers c !! i = Some pc -> holds_lock pc = true ->
  callers c !! j = Some pcj -> j <> i -> holds_lock pcj = false.
Proof.
  intros Hinv Hi Hh Hj Hne.
  destruct (holds_lock pcj) eqn:Hhj; [|done].
  pose proof (inv_holder _ _ _ Hinv i pc Hi Hh) as H1.
  pose proof (inv_holder _ _ _ Hinv j pcj Hj Hhj) as H2.
  congruence.
Qed.

(** One caller moves: what must hold of its move for the invariant to
    carry over.  The lock stays as it is, is released by its holder, or is
    taken while free; a caller outside the lock changes nothing shared. *)
Lemma inv_update (tr0 evs evs1 : list Event) (c : Conc) (i : nat)
    (pc pc' : Pc) (w' : World) (lk' : option nat) :
  conc_inv tr0 evs c ->
  callers c !! i = Some pc ->
  trace w' = trace (world c) ++ evs1 ->
  (lk' = lock c /\ holds_lock pc' = holds_lock pc
   \/ holds_lock pc = true /\ lk' = None /\ holds_lock pc' = false
   \/ lock c = None /\ lk' = Some i /\ holds_lock pc' = true
      /\ holds_lock pc = false) ->
  pc_ok (_instance w') (constructed (evs ++ evs1)) pc' ->
  (holds_lock pc = false -> evs1 = [] /\ _instance w' = _instance (world c)) ->
  (_instance w' = _instance (world c)
   \/ _instance (world c) = None /\ is_Some (_instance w')) ->
  (holds_lock pc = true ->
   forall h, _instance w' = Some h -> constructed (evs ++ evs1) = [h]) ->
  (holds_lock pc = true -> _instance w' = None ->
   constructed (evs ++ evs1) = [] \/ exists h, pc' = PAssign h) ->
  raised pc = false ->
  (raised pc' = false ->
   length (constructions evs1) = length (constructed evs1)) ->
  conc_inv tr0 (evs ++ evs1)
    {| world := w'; lock := lk'; callers := <[i := pc']> (callers c) |}.
Proof.
  intros Hinv Hpc Htr Hmode Hok' Hout Hinst Hc' Hu' Hnr Hatt'.
  pose proof (lookup_lt_Some _ _ _ Hpc) as Hlt.
  pose proof (fun j pcj Hh => others_outside tr0 evs c i j pc pcj Hinv Hpc Hh)
    as Hothers.
  destruct Hinv as [Htr0 Hholder Hlocked Hpcs Hcached Hunset Hatt].
  split; cbn [world lock callers].
  - by rewrite Htr, Htr0, app_assoc.
  - intros j pcj [[-> ->]|[Hne Hj]]%lookup_insert_cases Hh.
    + destruct Hmode as [[-> Heq]|[(_ & _ & Hf)|(_ & -> & _)]];
        [|congruence|done].
      apply (Hholder i pc Hpc). congruence.
    + pose proof (Hholder j pcj Hj Hh) as Hlj.
      destruct Hmode as [[-> _]|[(Hhpc & _)|(Hfree & _)]]; [done| |congruence].
      pose proof (Hholder i pc Hpc Hhpc). congruence.
  - intros j Hlj.
    destruct Hmode as [[-> Heq]|[(_ & -> & _)|(_ & -> & Hh & _)]]; [|done|].
    + destruct (Hlocked j Hlj) as (pcj & Hj & Hh).
      destruct (decide (j = i)) as [->|Hne].
      * exists pc'. rewrite list_lookup_insert_eq by done.
        split; [done|]. congruence.
      * exists pcj. by rewrite list_lookup_insert_ne.
    + injection Hlj as <-. exists pc'. by rewrite list_lookup_insert_eq.
  - intros j pcj [[-> ->]|[Hne Hj]]%lookup_insert_cases; [done|].
    pose proof (Hpcs j pcj Hj) as Hokj.
    destruct (holds_lock pc) eqn:Hhpc.
    + pose proof (Hothers j pcj eq_refl Hj Hne) as Hhj.
      destruct Hinst as [->|[Hnone [h Hsome]]].
      * by apply (pc_ok_outside _ (constructed evs)).
      * rewrite Hsome. rewrite Hnone in Hokj.
        by apply (pc_ok_set _ (constructed evs)).
    + destruct (Hout eq_refl) as [-> ->]. by rewrite app_nil_r.
  - intros h Hh. destruct (holds_lock pc) eqn:Hhpc; [by apply Hc'|].
    destruct (Hout eq_refl) as [-> Heq]. rewrite app_nil_r.
    apply Hcached. congruence.
  - intros Hnone. destruct (holds_lock pc) eqn:Hhpc.
    + destruct (Hu' eq_refl Hnone) as [?|[h ->]]; [by left|].
      right. exists i, h. by rewrite list_lookup_insert_eq.
    + destruct (Hout eq_refl) as [-> Heq]. rewrite app_nil_r.
      rewrite Heq in Hnone. destruct (Hunset Hnone) as [?|(j & h & Hj)]; [by left|].
      right. exists j, h. rewrite list_lookup_insert_ne; [done|].
      intros ->. rewrite Hpc in Hj. injection Hj as ->. done.
  - intros Hall. rewrite constructions_app, constructed_app, !length_app.
    rewrite Hatt, Hatt'; [done| |].
    + apply (Hall i). by rewrite list_lookup_insert_eq.
    + intros j pcj Hj. destruct (decide (j = i)) as [->|Hne]; [congruence|].
      apply (Hall j). by rewrite list_lookup_insert_ne.
Qed.

(** Carrying the invariant over a move that adds no event, and over one
    that adds an event. *)
Ltac carry_silent Hinv Hpc :=
  apply (inv_update _ _ _ _ _ _ _ _ _ Hinv Hpc); rewrite ?app_nil_r; cbn.
Ltac carry_event Hinv Hpc :=
  eapply (inv_update _ _ _ _ _ _ _ _ _ Hinv Hpc); [reflexivity|..];
  rewrite ?constructed_app.

Lemma step_inv (tr0 evs : list Event) (c c' : Conc) :
  conc_inv tr0 evs c -> step c c' -> exists evs', conc_inv tr0 evs' c'.
Proof.
  intros Hinv [i pc pc' w' lk' Hpc Hts].
  pose proof (inv_pc _ _ _ Hinv i pc Hpc) as Hok.
  pose proof (inv_cached _ _ _ Hinv) as Hcached.
  pose proof (inv_holder _ _ _ Hinv i pc Hpc) as Hheld.
  assert (holds_lock pc = true -> (forall h, pc <> PAssign h) ->
          _instance (world c) = None -> constructed evs = []) as Hbuilt.
  { intros Hh Hna Hnone.
    destruct (inv_unset _ _ _ Hinv Hnone) as [?|(j & h & Hj)]; [done|].
    destruct (decide (j = i)) as [->|Hne].
    - rewrite Hpc in Hj. injection Hj as ->. by destruct (Hna h).
    - by pose proof (others_outside tr0 evs c i j pc _ Hinv Hpc Hh Hj Hne). }
  destruct pc; cbn in Hts, Hok, Hheld.
  - (* PFastCheck *)
    exists (evs ++ []). destruct (_instance (world c)) as [h|] eqn:Hi;
      simplify_eq; carry_silent Hinv Hpc; rewrite ?Hi; auto; done.
  - (* PFastReturn *)
    exists (evs ++ []). simplify_eq.
    carry_silent Hinv Hpc; auto; done.
  - (* PAcquire *)
    exists (evs ++ []). destruct (lock c) eqn:Hlk; simplify_eq.
    carry_silent Hinv Hpc; auto; try done.
    right; right. by rewrite Hlk.
  - (* PSlowCheck *)
    exists (evs ++ []). destruct (_instance (world c)) as [h|] eqn:Hi;
      simplify_eq; carry_silent Hinv Hpc; rewrite ?Hi; auto; done.
  - (* PLockedReturn *)
    exists (evs ++ []). simplify_eq.
    carry_silent Hinv Hpc; auto; done.
  - (* PMkdir *)
    destruct Hok as [Hnone Hb0]. unfold call_mkdir in Hts.
    destruct (mkdir _ _) as [[]|e]; simplify_eq; eexists;
      carry_event Hinv Hpc; rewrite ?Hb0; cbn; rewrite ?Hnone; auto; done.
  - (* PDownload *)
    destruct Hok as [Hnone Hb0]. unfold call_hf_hub_download in Hts.
    destruct (hf_hub_download _ _ _ _) as [p|e]; simplify_eq; eexists;
      carry_event Hinv Hpc; rewrite ?Hb0; cbn; rewrite ?Hnone; auto; done.
  - (* PSetPath *)
    destruct Hok as [Hnone Hb0]. exists (evs ++ []). simplify_eq.
    carry_silent Hinv Hpc; rewrite ?Hnone; auto; done.
  - (* PConstruct *)
    destruct Hok as [Hnone Hb0]. unfold call_Llama in Hts.
    destruct (construct _ _) as [h|e]; simplify_eq; eexists;
      carry_event Hinv Hpc; rewrite ?Hb0; cbn; rewrite ?Hnone; auto; try done.
    intros ? ?. right. by exists h.
  - (* PAssign *)
    destruct Hok as [Hnone Hb0]. exists (evs ++ []). simplify_eq.
    carry_silent Hinv Hpc; rewrite ?Hnone; auto; try done.
    intros ? h0 [= <-]. done.
  - done.
  - done.
Qed.

Lemma reachable_inv (n : nat) (w : World) (c : Conc) :
  _instance w = None ->
  rtc step (conc_init n w) c ->
  exists evs, conc_inv (trace w) evs c.
Proof.
  intros Hi Hrun. revert c Hrun. apply rtc_ind_r.
  - exists []. by apply conc_init_inv.
  - intros c1 c2 _ Hstep [evs Hinv]. by eapply step_inv.
Qed.

(** Every attempt that did not raise built a handle. *)
Lemma constructed_le_constructions (evs : list Event) :
  (length (constructed evs) <= length (constructions evs))%nat.
Proof.
  induction evs as [|ev evs IH]; [done|].
  change (ev :: evs) with ([ev] ++ evs).
  rewrite constructed_app, constructions_app, !length_app.
  destruct ev as [| |a [h|e]|]; cbn; lia.
Qed.

Lemma constructions_all_built (evs : list Event) :
  length (constructions evs) = length (constructed evs) ->
  constructions evs = Ok <$> constructed evs.
Proof.
  induction evs as [|ev evs IH]; [done|].
  pose proof (constructed_le_constructions evs).
  change (ev :: evs) with ([ev] ++ evs).
  rewrite constructed_app, constructions_app, !length_app, fmap_app.
  destruct ev as [| |a [h|e]|]; cbn; intros Hl;
    first [by apply IH | lia | idtac].
  f_equal. apply IH. lia.
Qed.

(** The moves consume fuel. *)
Lemma thread_step_fuel (i : nat) (pc pc' : Pc) (w w' : World)
    (lk lk' : option nat) :
  thread_step i pc w lk = Some (pc', w', lk') -> (pc_fuel pc' < pc_fuel pc)%nat.
Proof.
  destruct pc; cbn; intros H; try done.
  - destruct (_instance w); simplify_eq; cbn; lia.
  - simplify_eq. cbn. lia.
  - destruct lk; simplify_eq. cbn. lia.
  - destruct (_instance w); simplify_eq; cbn; lia.
  - simplify_eq. cbn. lia.
  - destruct (mkdir _ _); simplify_eq; cbn; lia.
  - destruct (hf_hub_download _ _ _ _); simplify_eq; cbn; lia.
  - simplify_eq. cbn. lia.
  - destruct (construct _ _); simplify_eq; cbn; lia.
  - simplify_eq. cbn. lia.
Qed.

Lemma sum_list_insert (f : Pc -> nat) (cs : list Pc) (i : nat) (pc pc' : Pc) :
  cs !! i = Some pc ->
  (sum_list (f <$> <[i := pc']> cs) + f pc = sum_list (f <$> cs) + f pc')%nat.
Proof.
  revert i. induction cs as [|x cs IH]; intros [|i] Hi; simpl in Hi;
    simplify_eq.
  - simpl. lia.
  - specialize (IH i Hi). simpl. unfold fmap in IH. lia.
Qed.

Lemma step_fuel (c c' : Conc) :
  step c c' -> (conc_fuel c' < conc_fuel c)%nat.
Proof.
  intros [i pc pc' w' lk' Hpc Hts]. unfold conc_fuel. cbn [callers].
  pose proof (thread_step_fuel _ _ _ _ _ _ _ Hts).
  pose proof (sum_list_insert pc_fuel _ i pc pc' Hpc). lia.
Qed.

Lemma nsteps_fuel (k : nat) (c c' : Conc) :
  nsteps step k c c' -> (k + conc_fuel c' <= conc_fuel c)%nat.
Proof.
  induction 1 as [|k c1 c2 c3 Hstep _ IH]; [lia|].
  pose proof (step_fuel _ _ Hstep). lia.
Qed.

Lemma conc_init_fuel (n : nat) (w : World) : conc_fuel (conc_init n w) = (9 * n)%nat.
Proof.
  unfold conc_fuel, conc_init. cbn [callers].
  induction n as [|n IH]; [done|]. cbn [replicate fmap list_fmap sum_list].
  cbn [fmap] in IH. rewrite IH. cbn. lia.
Qed.

(** No deadlock: while some caller has not finished, some caller can move. *)
Lemma inv_progress (tr0 evs : list Event) (c : Conc) (i : nat) (pc : Pc) :
  conc_inv tr0 evs c ->
  callers c !! i = Some pc -> finished pc = false ->
  exists c', step c c'.
Proof.
  intros Hinv Hpc Hnf.
  assert (forall j pcj, callers c !! j = Some pcj ->
                        is_Some (thread_step j pcj (world c) (lock c)) ->
                        exists c', step c c') as Hgo.
  { intros j pcj Hj [[[pc' w'] lk'] Hts]. eexists. by eapply step_caller. }
  destruct (lock c) as [j|] eqn:Hlk.
  - destruct (inv_locked _ _ _ Hinv j Hlk) as (pcj & Hj & Hh).
    apply (Hgo j pcj Hj).
    destruct pcj; cbn in *; try done; eauto.
    + destruct (mkdir _ _); eauto.
    + destruct (hf_hub_download _ _ _ _); eauto.
    + destruct (construct _ _); eauto.
  - apply (Hgo i pc Hpc).
    pose proof (inv_holder _ _ _ Hinv i pc Hpc) as Hh. rewrite Hlk in Hh.
    destruct pc; cbn in *; try done; eauto; by specialize (Hh eq_refl).
Qed.

(** When the collaborators do not fail no caller leaves by an exception. *)
Lemma no_failure_no_raise (n : nat) (w : World) (c : Conc) :
  (forall tr d, is_Ok (mkdir tr d)) ->
  (forall tr r f d, is_Ok (hf_hub_download tr r f d)) ->
  (forall tr a, is_Ok (Llama_init tr a)) ->
  rtc step (conc_init n w) c ->
  forall i pc, callers c !! i = Some pc -> raised pc = false.
Proof.
  intros Hmk Hdl Hll Hrun. revert c Hrun.
  apply (rtc_ind_r
           (fun c => forall i pc, callers c !! i = Some pc -> raised pc = false)).
  - intros i pc Hpc. apply lookup_replicate in Hpc as [-> _]. done.
  - intros c1 c2 _ Hstep IH.
    destruct Hstep as [j pcj pc' w' lk' Hj Hts]. cbn [callers].
    intros i pc [[-> ->]|[_ Hi]]%lookup_insert_cases; [|by eapply IH].
    destruct pcj; cbn in Hts; try done.
    + destruct (_instance _); by simplify_eq.
    + by simplify_eq.
    + destruct (lock c1); by simplify_eq.
    + destruct (_instance _); by simplify_eq.
    + by simplify_eq.
    + specialize (Hmk (trace (world c1)) (model_cache_dir settings)).
      destruct (mkdir _ _); by simplify_eq.
    + specialize (Hdl (trace (world c1)) (model_repo_id settings)
                    (model_file settings) (model_cache_dir settings)).
      destruct (hf_hub_download _ _ _ _); by simplify_eq.
    + by simplify_eq.
    + specialize (Hll (trace (world c1)) (llama_args_of model_path)).
      unfold construct in Hts.
      destruct (Llama_init _ _); by simplify_eq.
    + by simplify_eq.
Qed.

(** A run under a schedule is a run of the system. *)
Lemma run_schedule_rtc (schedule : list nat) (c : Conc) :
  rtc step c (run_schedule schedule c).
Proof.
  revert c. induction schedule as [|i schedule IH]; intros c; [done|].
  cbn. etrans; [|apply IH].
  unfold sched_step. destruct (callers c !! i) as [pc|] eqn:Hpc; [|done].
  destruct (thread_step i pc (world c) (lock c)) as [[[pc' w'] lk']|] eqn:Hts;
    [|done].
  apply rtc_once. by eapply step_caller.
Qed.

Lemma sched_step_solo (pc : Pc) (w : World) (lk : option nat) :
  sched_step {| world := w; lock := lk; callers := [pc] |} 0
  = match thread_step 0 pc w lk with
    | Some (pc', w', lk') => {| world := w'; lock := lk'; callers := [pc'] |}
    | None => {| world := w; lock := lk; callers := [pc] |}
    end.
Proof. reflexivity. Qed.

(** The lone caller executes one statement, or as many as it has left. *)
Ltac solo_step := rewrite sched_step_solo; cbn [thread_step].
Ltac solo_steps := repeat solo_step.

(** One caller alone, scheduled nine times, does what [_load_llama] does. *)
Lemma solo_run_is_load_llama (w : World) :
  run_schedule (replicate 9 0%nat) (conc_init 1 w)
  = {| world := fst (_load_llama w);
       lock := None;
       callers := [match snd (_load_llama w) with
                   | Ok h => PReturned (Some h)
                   | Raise e => PRaised e
                   end] |}.
Proof.
  unfold run_schedule, conc_init. cbn [replicate foldl].
  unfold _load_llama, _download_model, bind, get_instance, ret.
  solo_step.
  destruct (_instance w) as [h|] eqn:Hi.
  { solo_steps. by rewrite Hi. }
  do 2 solo_step. rewrite Hi.
  solo_step.
  destruct (call_mkdir (model_cache_dir settings) w) as [w1 [[]|e]] eqn:Hmk.
  2:{ by solo_steps. }
  solo_step.
  destruct (call_hf_hub_download _ _ _ w1) as [w2 [p|e]] eqn:Hdl.
  2:{ solo_steps. reflexivity. }
  do 2 solo_step.
  unfold set_model_path. cbn [fst snd].
  destruct (call_Llama _ _) as [w3 [h|e]] eqn:Hc.
  2:{ by solo_steps. }
  do 2 solo_step.
  by unfold set_instance.
Qed.

Lemma reachable_callers (n : nat) (w : World) (c : Conc) :
  rtc step (conc_init n w) c -> length (callers c) = n.
Proof.
  intros Hrun. revert c Hrun. apply rtc_ind_r.
  - apply length_replicate.
  - intros c1 c2 _ [i pc pc' w' lk' _ _] IH. cbn [callers].
    by rewrite length_insert.
Qed.

(** C2. Single construction under contention.  [n] callers enter
    [_load_llama] together while [_instance] is unset, and their statements
    interleave in any order.  In every state they can reach: at most one
    handle has been built; every caller that has returned has received a
    handle, the one now in [_instance]; once all of them have returned the
    constructor has been called exactly once, with success, and all hold
    that one handle.  No state is stuck while a caller is still inside, and
    no run is longer than [9 * n] steps, so every run ends with every
    caller out; when the collaborators do not fail no caller is out by an
    exception.  Once [_instance] is set, a call goes through the first
    check and returns the handle in two statements of its own, whoever
    holds the lock, and changes neither the lock nor the state. *)
Theorem single_construction_under_contention (n : nat) (w : World) (c : Conc) :
  _instance w = None ->
  rtc step (conc_init n w) c ->
  exists evs,
    trace (world c) = trace w ++ evs
    /\ (length (constructed evs) <= 1)%nat
    /\ (forall i r, callers c !! i = Some (PReturned r) ->
          is_Some r /\ r = _instance (world c))
    /\ ((0 < n)%nat ->
        (forall i pc, callers c !! i = Some pc -> exists r, pc = PReturned r) ->
        exists h,
          constructions evs = [Ok h]
          /\ callers c = replicate n (PReturned (Some h)))
    /\ (forall i pc, callers c !! i = Some pc -> finished pc = false ->
          exists c', step c c')
    /\ (forall k, nsteps step k (conc_init n w) c -> (k <= 9 * n)%nat)
    /\ ((forall tr d, is_Ok (mkdir tr d)) ->
        (forall tr r f d, is_Ok (hf_hub_download tr r f d)) ->
        (forall tr a, is_Ok (Llama_init tr a)) ->
        forall i pc, callers c !! i = Some pc -> raised pc = false)
    /\ (forall h, _instance (world c) = Some h ->
          _load_llama (world c) = (world c, Ok h)
          /\ forall i lk,
               thread_step i PFastCheck (world c) lk
               = Some (PFastReturn, world c, lk)
               /\ thread_step i PFastReturn (world c) lk
                  = Some (PReturned (Some h), world c, lk)).
Proof.
  intros Hi Hrun.
  destruct (reachable_inv n w c Hi Hrun) as [evs Hinv].
  pose proof (reachable_callers n w c Hrun) as Hlen.
  exists evs. split; [apply (inv_trace _ _ _ Hinv)|].
  split; [|split; [|split; [|split; [|split; [|split]]]]].
  - destruct (_instance (world c)) as [h|] eqn:Hc.
    + by rewrite (inv_cached _ _ _ Hinv h Hc).
    + destruct (inv_unset _ _ _ Hinv Hc) as [->|(j & h & Hj)]; [simpl; lia|].
      destruct (inv_pc _ _ _ Hinv j _ Hj) as [_ ->]. done.
  - intros i r Hr. destruct (inv_pc _ _ _ Hinv i _ Hr) as [-> Hs]. done.
  - intros Hn Hall.
    destruct (lookup_lt_is_Some_2 (callers c) 0%nat) as [pc0 H0]; [lia|].
    destruct (Hall _ _ H0) as [r0 ->].
    destruct (inv_pc _ _ _ Hinv _ _ H0) as [-> [h Hh]].
    exists h. split.
    + rewrite constructions_all_built, (inv_cached _ _ _ Hinv h Hh); [done|].
      apply (inv_attempts _ _ _ Hinv). intros i pc Hpc.
      by destruct (Hall _ _ Hpc) as [r ->].
    + symmetry. apply replicate_as_Forall. split; [done|].
      apply Forall_forall. intros pc Hin.
      apply list_elem_of_lookup in Hin as [i Hpc].
      destruct (Hall _ _ Hpc) as [r ->].
      destruct (inv_pc _ _ _ Hinv _ _ Hpc) as [-> _]. by rewrite Hh.
  - intros i pc Hpc Hnf. by eapply inv_progress.
  - intros k Hk. pose proof (nsteps_fuel _ _ _ Hk) as Hf.
    rewrite conc_init_fuel in Hf. lia.
  - intros Hmk Hdl Hll. by eapply no_failure_no_raise.
  - intros h Hh. split; [by apply _load_llama_cached|].
    intros i lk. cbn. by rewrite Hh.
Qed.


(** ** Validation of a request ([app/schemas.py]) *)

Lemma lstrip_with_all (p : Ascii.ascii -> bool) (s : string) :
  forallb p (String.list_ascii_of_string (lstrip_with p s))
  = forallb p (String.list_ascii_of_string s).
Proof.
  induction s as [|c s IH]; [done|]. cbn [lstrip_with].
  destruct (p c) eqn:Hc; [|done]. rewrite IH. cbn. by rewrite Hc.
Qed.

Lemma rstrip_with_empty (p : Ascii.ascii -> bool) (s : string) :
  rstrip_with p s = EmptyString
  <-> forallb p (String.list_ascii_of_string s) = true.
Proof.
  induction s as [|c s IH]; [done|]. cbn [rstrip_with String.list_ascii_of_string forallb].
  destruct (rstrip_with p s) as [|c' r] eqn:Hr.
  - destruct (p c); cbn.
    + split; [intros _; by apply IH|done].
    + split; done.
  - split; [done|]. intros [_ Hall]%andb_prop. by apply IH in Hall.
Qed.

(** A string is truthy after [strip] exactly when one of its characters is
    not whitespace. *)
Lemma strip_truthy (s : string) :
  str_truthy (py_strip s) = true
  <-> exists c, In c (String.list_ascii_of_string s) /\ py_isspace c = false.
Proof.
  unfold py_strip.
  assert (str_truthy (rstrip_with py_isspace (lstrip_with py_isspace s)) = true
          <-> forallb py_isspace (String.list_ascii_of_string s) = false) as ->.
  { rewrite <- lstrip_with_all.
    pose proof (rstrip_with_empty py_isspace (lstrip_with py_isspace s)) as He.
    destruct (rstrip_with py_isspace (lstrip_with py_isspace s)) eqn:Hr; cbn.
    - split; [done|]. intros Hf. destruct He as [He _].
      rewrite He in Hf; done.
    - split; [|done]. intros _.
      destruct (forallb _ _) eqn:Hf; [|done].
      destruct He as [_ He]. by specialize (He eq_refl). }
  induction (String.list_ascii_of_string s) as [|c l IH]; cbn.
  - split; [done|]. by intros (c & [] & _).
  - destruct (py_isspace c) eqn:Hc; cbn.
    + rewrite IH. split.
      * intros (c' & Hin & Hc'). exists c'. auto.
      * intros (c' & [<-|Hin] & Hc'); [congruence|]. by exists c'.
    + split; [|done]. intros _. exists c. auto.
Qed.

(** X1. [validate_input] accepts a value exactly when its payload is not
    empty and every string of it has a character that is not whitespace; it
    then returns the value as it came, nothing stripped. *)
Theorem validate_input_accepts (value value' : Inputs) :
  validate_input value = Ok value'
  <-> value' = value
      /\ _ensure_iterable value <> []
      /\ Forall (fun item =>
                   exists c, In c (String.list_ascii_of_string item)
                             /\ py_isspace c = false)
                (_ensure_iterable value).
Proof.
  destruct value as [s|items]; cbn [validate_input _ensure_iterable].
  - destruct (str_truthy (py_strip s)) eqn:Hs.
    + apply strip_truthy in Hs. split.
      * intros [= <-]. split; [done|]. split; [done|]. by constructor.
      * by intros (-> & _).
    + split; [done|]. intros (_ & _ & Hall).
      apply Forall_cons in Hall as [Hc _]. apply strip_truthy in Hc. congruence.
  - destruct items as [|item items]; [split; [done|by intros (_ & ? & _)]|].
    set (l := item :: items).
    destruct (forallb _ l) eqn:Hall.
    + split; [|by intros (-> & _)].
      intros [= <-]. split; [done|]. split; [done|].
      apply Forall_forall. intros it Hin.
      apply strip_truthy. rewrite forallb_forall in Hall.
      apply Hall. by apply list_elem_of_In.
    + split; [done|]. intros (_ & _ & HF). exfalso.
      assert (forallb (fun item => str_truthy (py_strip item)) l = true) as Ht.
      { apply forallb_forall. intros it Hin. apply strip_truthy.
        rewrite Forall_forall in HF. apply HF. by apply list_elem_of_In. }
      congruence.
Qed.

(** X2. What [validate_input] refuses, and with which message: the empty
    list; a list with an item that is empty or all whitespace; a bare string
    that is empty or all whitespace.  Every refusal is one of the three. *)
Theorem validate_input_refuses (value : Inputs) (e : PyException) :
  validate_input value = Raise e
  <-> (value = InSeq []
       /\ e = ValueError "input must contain at least one string")
      \/ (exists items item,
            value = InSeq items /\ item ∈ items
            /\ forallb py_isspace (String.list_ascii_of_string item) = true
            /\ e = ValueError "each item in input must be a non-empty string")
      \/ (exists s,
            value = InStr s
            /\ forallb py_isspace (String.list_ascii_of_string s) = true
            /\ e = ValueError "input must be a non-empty string").
Proof.
  assert (forall s, str_truthy (py_strip s) = false
                    <-> forallb py_isspace (String.list_ascii_of_string s) = true)
    as Hblank.
  { intros s. pose proof (strip_truthy s) as Ht.
    destruct (str_truthy (py_strip s)).
    - split; [done|]. intros Hall. destruct Ht as [Ht _].
      destruct (Ht eq_refl) as (c & Hin & Hc).
      rewrite forallb_forall in Hall. rewrite (Hall c Hin) in Hc. done.
    - split; [|done]. intros _.
      destruct (forallb _ _) eqn:Hall; [done|].
      destruct Ht as [_ Ht]. enough (false = true) by done. apply Ht.
      clear Ht. induction (String.list_ascii_of_string s) as [|c l IH]; [done|].
      cbn in Hall. destruct (py_isspace c) eqn:Hc; cbn in Hall.
      + destruct (IH Hall) as (c' & Hin & Hc'). exists c'. cbn. auto.
      + exists c. cbn. auto. }
  destruct value as [s|items]; cbn [validate_input].
  - destruct (str_truthy (py_strip s)) eqn:Hs.
    + split; [done|]. intros [(? & _)|[(? & ? & ? & _)|(s' & [= <-] & Hb & _)]];
        try done.
      apply Hblank in Hb. congruence.
    + split.
      * intros [= <-]. right; right. exists s. by rewrite <- Hblank.
      * intros [(? & _)|[(? & ? & ? & _)|(s' & [= <-] & _ & ->)]]; done.
  - destruct items as [|item items].
    { split; [intros [= <-]; by left|].
      intros [(_ & ->)|[(? & it & [= <-] & Hin & _)|(? & ? & _)]]; try done.
      by apply elem_of_nil in Hin. }
    set (l := item :: items).
    destruct (forallb _ l) eqn:Hall.
    + split; [done|].
      intros [(? & _)|[(l' & it & [= <-] & Hin & Hb & _)|(? & ? & _)]]; try done.
      rewrite forallb_forall in Hall.
      apply list_elem_of_In in Hin. specialize (Hall it Hin).
      apply Hblank in Hb. congruence.
    + split.
      * intros [= <-]. right; left.
        assert (exists it, it ∈ l /\ str_truthy (py_strip it) = false)
          as (it & Hin & Hb).
        { clear -Hall. induction l as [|x l IH]; [done|]. cbn in Hall.
          destruct (str_truthy (py_strip x)) eqn:Hx; cbn in Hall.
          - destruct (IH Hall) as (it & Hin & Hb). exists it.
            split; [by apply list_elem_of_further|done].
          - exists x. split; [apply list_elem_of_here|done]. }
        exists l, it. by rewrite <- Hblank.
      * intros [(? & _)|[(l' & it & [= <-] & _ & _ & ->)|(? & ? & _)]]; done.
Qed.

(** ** Acquiring the handle: the calls made, in order *)

(** What [_load_llama] does when no handle is cached: the three calls in
    order, up to the first that raises. *)
Lemma _load_llama_cold (w : World) :
  _instance w = None ->
  let dir := model_cache_dir settings in
  let repo := model_repo_id settings in
  let file := model_file settings in
  (exists e,
     _load_llama w = (add_events [EvMkdir dir (Raise e)] w, Raise e))
  \/ (exists e,
        _load_llama w
        = (add_events [EvMkdir dir (Ok tt); EvDownload repo file dir (Raise e)] w,
           Raise e))
  \/ (exists p e,
        _load_llama w
        = ({| _instance := None; _model_path := Some p;
              trace := trace w ++ [EvMkdir dir (Ok tt);
                                   EvDownload repo file dir (Ok p);
                                   EvLlama (llama_args_of p) (Raise e)];
              log := log w |}, Raise e))
  \/ (exists p,
        let h := {| llama_id := length (trace w) + 2;
                    llama_args := llama_args_of p |} in
        _load_llama w
        = ({| _instance := Some h; _model_path := Some p;
              trace := trace w ++ [EvMkdir dir (Ok tt);
                                   EvDownload repo file dir (Ok p);
                                   EvLlama (llama_args_of p) (Ok h)];
              log := log w |}, Ok h)).
Proof.
  intros Hi dir repo file. unfold_load. unfold add_events. cbn. rewrite !Hi.
  fold dir repo file.
  destruct (mkdir (trace w) dir) as [[]|e] eqn:Hmk; cbn; [|left; by exists e].
  right.
  destruct (hf_hub_download _ repo file dir) as [p|e] eqn:Hdl; cbn.
  2:{ left. exists e. by rewrite <- app_assoc. }
  right. unfold construct.
  destruct (Llama_init _ _) as [[]|e] eqn:Hin; cbn.
  - right. exists p. cbn. rewrite <- !app_assoc. cbn.
    rewrite !length_app. cbn. done.
  - left. exists p, e. by rewrite <- !app_assoc.
Qed.

(** X3. A first acquisition that succeeds made exactly three calls, in this
    order: [mkdir] on the cache directory, [hf_hub_download] of the
    configured file into it, and the constructor on the path the hub gave
    back, in embedding mode, with no GPU layer and the configured context,
    threads and batch.  The path is kept in [_model_path] and the new
    handle in [_instance]; the log is left alone. *)
Theorem first_load_calls (w w' : World) (h : Llama) :
  _instance w = None ->
  _load_llama w = (w', Ok h) ->
  exists p,
    trace w'
    = trace w ++ [EvMkdir (model_cache_dir settings) (Ok tt);
                  EvDownload (model_repo_id settings) (model_file settings)
                    (model_cache_dir settings) (Ok p);
                  EvLlama (llama_args h) (Ok h)]
    /\ llama_args h
       = {| arg_model_path := p; arg_embedding := true;
            n_ctx := context_window settings; n_threads := threads settings;
            n_batch := batch_size settings; n_gpu_layers := 0 |}
    /\ _model_path w' = Some p
    /\ _instance w' = Some h
    /\ log w' = log w.
Proof.
  intros Hi Hl.
  destruct (_load_llama_cold w Hi) as [[e H]|[[e H]|[(p & e & H)|[p H]]]];
    cbn zeta in H; rewrite H in Hl; simplify_eq.
  by exists p.
Qed.

(** X4. An acquisition that fails stopped at the first call that raised:
    after a failed [mkdir] the hub is not asked, after a failed download the
    constructor is not called.  [_instance] stays unset, and [_model_path]
    changes only when the download had succeeded. *)
Theorem failed_load_calls (w w' : World) (e : PyException) :
  _load_llama w = (w', Raise e) ->
  let dir := model_cache_dir settings in
  let repo := model_repo_id settings in
  let file := model_file settings in
  _instance w = None /\ _instance w' = None /\ log w' = log w
  /\ (trace w' = trace w ++ [EvMkdir dir (Raise e)]
      /\ _model_path w' = _model_path w
      \/ trace w' = trace w ++ [EvMkdir dir (Ok tt);
                                EvDownload repo file dir (Raise e)]
         /\ _model_path w' = _model_path w
      \/ exists p,
           trace w' = trace w ++ [EvMkdir dir (Ok tt);
                                  EvDownload repo file dir (Ok p);
                                  EvLlama (llama_args_of p) (Raise e)]
           /\ _model_path w' = Some p).
Proof.
  intros Hl dir repo file.
  destruct (_instance w) as [h|] eqn:Hi.
  { by rewrite (_load_llama_cached w h Hi) in Hl. }
  split; [done|].
  destruct (_load_llama_cold w Hi) as [[e' H]|[[e' H]|[(p & e' & H)|[p H]]]];
    cbn zeta in H; rewrite H in Hl; simplify_eq; cbn; rewrite ?Hi;
    repeat split; auto.
  right; right. by exists p.
Qed.

(** ** [embed] with the handle cached, and over the life of the service *)

Lemma embed_cached (inputs : Inputs) (normalize : bool)
    (b : option Z) (w : World) (h : Llama) :
  _instance w = Some h ->
  _instance (fst (embed inputs normalize b w)) = Some h
  /\ _model_path (fst (embed inputs normalize b w)) = _model_path w
  /\ log (fst (embed inputs normalize b w)) = log w
  /\ exists evs,
       trace (fst (embed inputs normalize b w)) = trace w ++ evs
       /\ Forall (fun ev => exists chunk kwargs r,
                    ev = EvCreateEmbedding h chunk kwargs r) evs.
Proof.
  intros Hi.
  destruct (embed_spec inputs normalize b w w h (_load_llama_cached w h Hi))
    as (calls & Hw & _). cbn zeta in Hw. rewrite Hw.
  unfold add_events. cbn. repeat split; auto.
  eexists. split; [done|].
  apply Forall_fmap, Forall_forall. intros [c r] _. cbn. by eexists _, _, _.
Qed.

Lemma create_embeddings_cached (request : EmbeddingRequest) (w : World)
    (h : Llama) :
  _instance w = Some h ->
  _instance (fst (create_embeddings request w)) = Some h
  /\ _model_path (fst (create_embeddings request w)) = _model_path w
  /\ exists evs,
       trace (fst (create_embeddings request w)) = trace w ++ evs
       /\ Forall (fun ev => exists chunk kwargs r,
                    ev = EvCreateEmbedding h chunk kwargs r) evs.
Proof.
  intros Hi. unfold create_embeddings. rewrite embed_normalized_inputs.
  destruct (embed_cached (req_input request) (req_normalize request)
              (req_batch_size request) w h Hi) as (H1 & H2 & _ & H3).
  by destruct (embed _ _ _ w) as [w1 [res|e]].
Qed.

(** X5. With a handle cached, [embed] asks nothing of the file system, the
    hub or the constructor: every call it makes is a [create_embedding] on
    the cached handle.  Whether it returns or raises, the handle stays
    cached, and [_model_path] and the log are as before.  The same holds of
    a request handled by [create_embeddings], but for its log record. *)
Theorem embed_with_cached_handle (inputs : Inputs) (normalize : bool)
    (b : option Z) (w : World) (h : Llama) :
  _instance w = Some h ->
  let w' := fst (embed inputs normalize b w) in
  _instance w' = Some h
  /\ _model_path w' = _model_path w
  /\ log w' = log w
  /\ (exists evs,
        trace w' = trace w ++ evs
        /\ Forall (fun ev => exists chunk kwargs r,
                     ev = EvCreateEmbedding h chunk kwargs r) evs)
  /\ forall request,
       _instance (fst (create_embeddings request w)) = Some h
       /\ _model_path (fst (create_embeddings request w)) = _model_path w
       /\ exists evs,
            trace (fst (create_embeddings request w)) = trace w ++ evs
            /\ Forall (fun ev => exists chunk kwargs r,
                         ev = EvCreateEmbedding h chunk kwargs r) evs.
Proof.
  intros Hi w'.
  destruct (embed_cached inputs normalize b w h Hi) as (H1 & H2 & H3 & H4).
  do 4 (split; [done|]). intros request. by apply create_embeddings_cached.
Qed.

Lemma constructed_call_events (llama : Llama) (kwargs : Kwargs)
    (calls : list (list string * result Response)) :
  constructed (call_event llama kwargs <$> calls) = [].
Proof. induction calls as [|c calls IH]; [done|]. by rewrite fmap_cons. Qed.

Lemma load_world_ok (w : World) :
  world_ok w -> world_ok (fst (_load_llama w)).
Proof.
  intros [Hc Hev].
  destruct (_instance w) as [h|] eqn:Hi.
  { rewrite (_load_llama_cached w h Hi). cbn. split; by rewrite ?Hi. }
  cbn in Hc.
  assert (Forall (fun ev : Event =>
                    match ev with
                    | EvCreateEmbedding _ _ _ _ => False
                    | _ => True
                    end) (trace w)) as Hnone.
  { eapply Forall_impl; [exact Hev|]. by intros [| | |]. }
  assert (forall (inst : option Llama),
            Forall (fun ev : Event =>
                      match ev with
                      | EvCreateEmbedding h _ _ _ => inst = Some h
                      | _ => True
                      end) (trace w)) as Hany.
  { intros inst. eapply Forall_impl; [exact Hnone|]. by intros [| | |]. }
  destruct (_load_llama_cold w Hi) as [[e H]|[[e H]|[(p & e & H)|[p H]]]];
    cbn zeta in H; rewrite H; cbn; (split; cbn;
      [rewrite constructed_app, Hc; by rewrite ?Hi
      |apply Forall_app; split; [apply Hany|by repeat constructor]]).
Qed.

Lemma calls_world_ok (llama : Llama) (kwargs : Kwargs)
    (calls : list (list string * result Response)) (w : World) :
  world_ok w -> _instance w = Some llama ->
  world_ok (add_events (call_event llama kwargs <$> calls) w).
Proof.
  intros [Hc Hev] Hi. split; cbn.
  - by rewrite constructed_app, constructed_call_events, app_nil_r.
  - apply Forall_app. split; [done|].
    apply Forall_fmap, Forall_forall. by intros [c r] _.
Qed.

Lemma embed_world_ok (inputs : Inputs) (normalize : bool) (b : option Z)
    (w : World) :
  world_ok w -> world_ok (fst (embed inputs normalize b w)).
Proof.
  intros Hok. pose proof (load_world_ok w Hok) as Hok1.
  destruct (_load_llama_spec w) as (evs & _ & _ & _ & Hres).
  destruct (_load_llama w) as [w1 [llama|e]] eqn:Hl; cbn [fst snd] in *.
  - destruct (embed_spec inputs normalize b w w1 llama Hl) as (calls & Hw & _).
    cbn zeta in Hw. rewrite Hw. apply calls_world_ok; [done|].
    by destruct Hres as [-> _].
  - by rewrite (embed_load_raises inputs normalize b w w1 e Hl).
Qed.

Lemma world_ok_log (w : World) (l : list LogRecord) :
  world_ok w ->
  world_ok {| _instance := _instance w; _model_path := _model_path w;
              trace := trace w; log := l |}.
Proof. by intros [? ?]. Qed.

Lemma create_embeddings_world_ok (request : EmbeddingRequest) (w : World) :
  world_ok w -> world_ok (fst (create_embeddings request w)).
Proof.
  intros Hok. unfold create_embeddings.
  pose proof (embed_world_ok (InSeq (_normalize_inputs (req_input request)))
                (req_normalize request) (req_batch_size request) w Hok) as H1.
  destruct (embed _ _ _ w) as [w1 [res|e]]; cbn in *; [done|].
  by apply world_ok_log.
Qed.

Lemma lifespan_world_ok (w : World) : world_ok w -> world_ok (fst (lifespan w)).
Proof.
  intros Hok. unfold lifespan, try_except, _warm_model, bind, ret, logger.
  pose proof (embed_world_ok (InSeq ["warmup"]) true None w Hok) as H1.
  destruct (embed _ _ _ w) as [w1 [res|e]]; cbn in *; by apply world_ok_log.
Qed.

Lemma serve_world_ok (requests : list EmbeddingRequest) (w : World) :
  world_ok w -> world_ok (fst (serve requests w)).
Proof.
  revert w. induction requests as [|request requests IH]; intros w Hok; [done|].
  cbn [serve].
  pose proof (create_embeddings_world_ok request w Hok) as H1.
  destruct (create_embeddings request w) as [w1 response]. cbn [fst] in H1.
  specialize (IH w1 H1). by destruct (serve requests w1).
Qed.

(** X6. One handle for the life of the service.  Started from a state in
    which the handles built are the one cached and every engine call was
    made on it (the state of a fresh process is such a state), after the
    warm-up and any sequence of requests, failed or not, at most one
    construction has ever succeeded, its handle is the one cached, and
    every [create_embedding] call in the history was made on that handle. *)
Theorem service_keeps_one_handle (requests : list EmbeddingRequest) (w : World) :
  world_ok w ->
  let w' := fst (service requests w) in
  (length (constructed (trace w')) <= 1)%nat
  /\ constructed (trace w') = option_list (_instance w')
  /\ forall h chunk kwargs r,
       EvCreateEmbedding h chunk kwargs r ∈ trace w' ->
       _instance w' = Some h /\ constructed (trace w') = [h].
Proof.
  intros Hok w'.
  assert (world_ok w') as [Hc Hev].
  { subst w'. unfold service. by apply serve_world_ok, lifespan_world_ok. }
  split; [rewrite Hc; destruct (_instance w'); cbn; lia|]. split; [done|].
  intros h chunk kwargs r Hin. rewrite Forall_forall in Hev.
  specialize (Hev _ Hin). cbn in Hev. split; [done|]. by rewrite Hc, Hev.
Qed.

Lemma serve_cached (requests : list EmbeddingRequest) (w : World) (h : Llama) :
  _instance w = Some h ->
  _instance (fst (serve requests w)) = Some h
  /\ _model_path (fst (serve requests w)) = _model_path w
  /\ exists evs,
       trace (fst (serve requests w)) = trace w ++ evs
       /\ Forall (fun ev => exists chunk kwargs r,
                    ev = EvCreateEmbedding h chunk kwargs r) evs.
Proof.
  revert w. induction requests as [|request requests IH]; intros w Hi.
  { cbn. repeat split; auto. exists []. by rewrite app_nil_r. }
  cbn [serve].
  destruct (create_embeddings_cached request w h Hi)
    as (Hi1 & Hp1 & evs1 & Htr1 & Hall1).
  destruct (create_embeddings request w) as [w1 response]. cbn [fst] in *.
  destruct (IH w1 Hi1) as (Hi2 & Hp2 & evs2 & Htr2 & Hall2).
  destruct (serve requests w1) as [w2 responses]. cbn [fst] in *.
  split; [done|]. split; [congruence|].
  exists (evs1 ++ evs2). rewrite Htr2, Htr1, app_assoc. split; [done|].
  by apply Forall_app.
Qed.

(** X7. The warm-up pays for the model: when the warm-up call of [lifespan]
    succeeded, a handle is cached when the service starts to serve, and no
    request that follows touches the file system, the hub or the
    constructor: all the calls of all the requests are [create_embedding]
    calls on that handle. *)
Theorem warm_service_never_loads (requests : list EmbeddingRequest) (w : World) :
  is_Ok (snd (embed (InSeq ["warmup"]) true None w)) ->
  exists h,
    _instance (fst (lifespan w)) = Some h
    /\ _instance (fst (service requests w)) = Some h
    /\ exists evs,
         trace (fst (service requests w)) = trace (fst (lifespan w)) ++ evs
         /\ Forall (fun ev => exists chunk kwargs r,
                      ev = EvCreateEmbedding h chunk kwargs r) evs.
Proof.
  intros Hok.
  assert (exists h, _instance (fst (lifespan w)) = Some h) as [h Hh].
  { destruct (_load_llama_spec w) as (evs & _ & _ & _ & Hres).
    destruct (embed_events (InSeq ["warmup"]) true None w)
      as (evs' & _ & _ & Hinst & _).
    unfold lifespan, try_except, _warm_model, bind, ret, logger.
    destruct (_load_llama w) as [w1 [llama|e]] eqn:Hl; cbn [fst snd] in *.
    - destruct Hres as [Hi1 _]. exists llama.
      destruct (embed _ _ _ w) as [w2 [res|e]]; cbn in *; congruence.
    - by rewrite (embed_load_raises _ _ _ w w1 e Hl) in Hok. }
  exists h. split; [done|]. unfold service.
  destruct (serve_cached requests (fst (lifespan w)) h Hh) as (Hi & _ & evs & Htr & Hall).
  split; [done|]. by exists evs.
Qed.

(** ** What [embed] returns *)

Lemma positive_sub_batches (payload : list string) (rb : Z) :
  0 < rb -> sub_batches payload rb = chunks (Z.to_nat rb) payload.
Proof. intros H. unfold sub_batches. by destruct (Z.ltb_spec 0 rb); [|lia]. Qed.

(** An engine that answers string by string gives [embed] its answers in
    the order of the inputs. *)
Lemma embed_pointwise (vec : Kwargs -> string -> Vec)
    (inputs : Inputs) (normalize : bool) (b : option Z) (w : World) :
  0 < max_batch_size settings ->
  batch_size_ge_1 b ->
  is_Ok (snd (_load_llama w)) ->
  (forall tr llama chunk kwargs, exists resp,
      create_embedding tr llama chunk kwargs = Ok resp
      /\ (fun item : gmap string Vec => item !! "embedding") <$> data resp
         = (fun s => Some (vec kwargs s)) <$> chunk) ->
  snd (embed inputs normalize b w)
  = Ok (vec (kwargs_of normalize (pooling_value (embedding_pooling settings)))
        <$> _ensure_iterable inputs).
Proof.
  intros Hmax Hb Hok Hengine.
  pose proof (resolved_batch_positive b Hmax Hb) as Hpos.
  destruct (_load_llama w) as [w1 [llama|e]] eqn:Hl; [|done].
  destruct (embed_spec inputs normalize b w w1 llama Hl)
    as (calls & _ & Hor & Hch & Hres). cbn zeta in *.
  set (kw := kwargs_of normalize (pooling_value (embedding_pooling settings))) in *.
  rewrite positive_sub_batches in Hch, Hres by done.
  assert (forall c r, (c, r) ∈ calls ->
            exists resp, r = Ok resp
                         /\ chunk_embeddings_of resp = vec kw <$> c) as Hgood.
  { intros c r Hin. rewrite Forall_forall in Hor.
    destruct (Hor _ Hin) as [tr Hr]. cbn in Hr.
    destruct (Hengine tr llama c kw) as (resp & Hresp & Hdata).
    exists resp. split; [congruence|].
    unfold chunk_embeddings_of. clear -Hdata.
    revert c Hdata. induction (data resp) as [|item items IH]; intros [|s c] Hd;
      try done.
    rewrite !fmap_cons in Hd. injection Hd as Hi Hd.
    cbn [omap list_omap]. rewrite Hi. rewrite fmap_cons. f_equal. by apply IH. }
  destruct (snd (embed inputs normalize b w)) as [res|e] eqn:Hsnd.
  2:{ exfalso. destruct Hres as [[resps Hs]|(_ & _ & Hz & _)]; [|lia].
      assert (Raise e ∈ snd <$> calls) as Hin by (rewrite Hs; set_solver).
      apply list_elem_of_fmap in Hin as ([c r] & Heq & Hin). cbn in Heq. subst r.
      destruct (Hgood _ _ Hin) as (? & ? & _). done. }
  destruct Hres as (Hlen & resps & Hs & ->).
  rewrite take_ge in Hch by lia. f_equal.
  replace (vec kw <$> _ensure_iterable inputs)
    with (vec kw <$> concat (fst <$> calls))
    by (rewrite Hch, concat_chunks; [done|lia]).
  clear Hch Hlen Hor Hsnd.
  revert resps Hs. induction calls as [|[c r] calls IH]; intros resps Hs.
  { by destruct resps. }
  destruct resps as [|resp resps]; [done|].
  rewrite !fmap_cons in Hs. injection Hs as Hr Hs. cbn in Hr. subst r.
  rewrite !fmap_cons. cbn [concat fst]. rewrite fmap_app.
  destruct (Hgood c (Ok resp)) as (resp' & [= <-] & ->); [apply list_elem_of_here|].
  f_equal. apply IH; [|done].
  intros c' r' Hin. apply Hgood. by apply list_elem_of_further.
Qed.

(** X9. Batching does not show in the result.  With a positive configured
    maximum, batch sizes the schema allows and the handle acquired, when
    the engine answers each string [s] of a chunk with one entry whose
    vector is [vec kwargs s], whatever the chunk, [embed] returns
    [vec kwargs s] for each input [s] in order, and so returns the same list
    for any two batch sizes. *)
Theorem embed_result_independent_of_batch (vec : Kwargs -> string -> Vec)
    (inputs : Inputs) (normalize : bool) (b1 b2 : option Z) (w : World) :
  0 < max_batch_size settings ->
  batch_size_ge_1 b1 ->
  batch_size_ge_1 b2 ->
  is_Ok (snd (_load_llama w)) ->
  (forall tr llama chunk kwargs, exists resp,
      create_embedding tr llama chunk kwargs = Ok resp
      /\ (fun item : gmap string Vec => item !! "embedding") <$> data resp
         = (fun s => Some (vec kwargs s)) <$> chunk) ->
  snd (embed inputs normalize b1 w) = snd (embed inputs normalize b2 w)
  /\ snd (embed inputs normalize b1 w)
     = Ok (vec (kwargs_of normalize (pooling_value (embedding_pooling settings)))
           <$> _ensure_iterable inputs).
Proof.
  intros Hmax Hb1 Hb2 Hok Hengine.
  rewrite (embed_pointwise vec inputs normalize b1 w) by done.
  by rewrite (embed_pointwise vec inputs normalize b2 w).
Qed.

(** X11. The number of engine calls.  With a positive configured maximum and
    a batch size the schema allows, an [embed] call that succeeds on [n]
    strings with sub-batch size [B] has made [ceil(n / B)] calls to
    [create_embedding]; every chunk before the last has exactly [B] strings
    (and the last has the rest, at least one). *)
Theorem embed_call_count (inputs : Inputs) (normalize : bool) (b : option Z)
    (w : World) (evs : list Event) :
  0 < max_batch_size settings ->
  batch_size_ge_1 b ->
  is_Ok (snd (embed inputs normalize b w)) ->
  trace (fst (embed inputs normalize b w)) = trace w ++ evs ->
  let n := length (_ensure_iterable inputs) in
  let B := Z.to_nat (resolved_batch_of b) in
  length (compute_calls evs) = ((n + B - 1) / B)%nat
  /\ forall k chunk,
       passed_chunks evs !! k = Some chunk ->
       (0 < length chunk <= B)%nat
       /\ ((S k < length (compute_calls evs))%nat -> length chunk = B).
Proof.
  intros Hmax Hb Hok Htr n B.
  pose proof (resolved_batch_positive b Hmax Hb) as Hpos.
  assert (0 < B)%nat as HB by (subst B; lia).
  destruct (embed_events inputs normalize b w) as (evs' & Htr' & _ & _ & Hev).
  rewrite Htr' in Htr. apply app_inv_head in Htr. subst evs'.
  destruct (_load_llama w) as [w1 [llama|e]] eqn:Hl; cbn [snd] in Hev.
  2:{ by rewrite (embed_load_raises inputs normalize b w w1 e Hl) in Hok. }
  destruct Hev as (evs0 & calls & -> & Hc0 & _ & Hch & Hres).
  destruct (snd (embed inputs normalize b w)) as [res|e]; [|done].
  destruct Hres as (Hlen & _).
  rewrite positive_sub_batches in Hch, Hlen by done. fold B in Hch, Hlen.
  rewrite take_ge in Hch by lia.
  rewrite passed_chunks_calls, embed_compute_calls by done.
  rewrite length_fmap, Hlen, Hch.
  rewrite chunks_blocks by done. fold n.
  rewrite length_fmap, length_seq. split; [done|].
  intros k chunk Hk.
  apply list_lookup_fmap_Some in Hk as (k' & -> & Hk').
  apply lookup_seq in Hk' as [-> Hlt]. cbn in Hlt |- *.
  rewrite length_take, length_drop. fold n.
  pose proof (Nat.div_mod_eq (n + B - 1) B) as Hd.
  pose proof (Nat.mod_upper_bound (n + B - 1) B).
  split; [nia|]. intros Hnext. nia.
Qed.

(** X12. A negative maximum silences the service.  When the configured
    [max_batch_size] is negative and the handle can be acquired, [embed]
    makes no engine call and returns an empty list for every input, so
    every request gets a response 200 with no embedding in it. *)
Theorem negative_maximum_returns_nothing (request : EmbeddingRequest) (w : World) :
  max_batch_size settings < 0 ->
  is_Ok (snd (_load_llama w)) ->
  snd (embed (req_input request) (req_normalize request)
         (req_batch_size request) w) = Ok []
  /\ snd (create_embeddings request w)
     = Http200 {| response_data := [];
                  response_model :=
                    model_repo_id settings +:+ ":" +:+ model_file settings |}
  /\ exists evs,
       trace (fst (create_embeddings request w)) = trace w ++ evs
       /\ compute_calls evs = [].
Proof.
  intros Hmax Hok.
  assert (resolved_batch_of (req_batch_size request) < 0) as Hneg
    by (unfold resolved_batch_of; lia).
  pose proof (embed_negative_batch (req_input request) (req_normalize request)
                (req_batch_size request) w Hok Hneg) as Hres.
  split; [done|].
  destruct (embed_events (req_input request) (req_normalize request)
              (req_batch_size request) w) as (evs & Htr & _ & _ & Hev).
  unfold create_embeddings. rewrite embed_normalized_inputs.
  destruct (embed _ _ _ w) as [w1 r]. cbn [fst snd] in *. subst r.
  split; [done|]. exists evs. split; [done|].
  destruct (snd (_load_llama w)) as [llama|e]; [|done].
  destruct Hev as (evs0 & calls & -> & Hc0 & _ & Hch & _).
  rewrite embed_compute_calls by done.
  unfold sub_batches in Hch.
  destruct (Z.ltb_spec 0 (resolved_batch_of (req_batch_size request))); [lia|].
  rewrite take_nil in Hch. apply fmap_nil_inv in Hch. by subst calls.
Qed.

(** X13. A maximum of zero fails every request.  When the configured
    [max_batch_size] is 0, the handle can be acquired and the batch size is
    one the schema allows, [embed] on any non-empty payload raises the
    [ValueError] of [range] before any engine call, and the request gets a
    response 500. *)
Theorem zero_maximum_fails (request : EmbeddingRequest) (w : World) :
  max_batch_size settings = 0 ->
  batch_size_ge_1 (req_batch_size request) ->
  is_Ok (snd (_load_llama w)) ->
  _ensure_iterable (req_input request) <> [] ->
  snd (create_embeddings request w)
  = HTTPException 500 "Embedding failure: range() arg 3 must not be zero"
  /\ exists evs,
       trace (fst (create_embeddings request w)) = trace w ++ evs
       /\ compute_calls evs = [].
Proof.
  intros Hmax Hb Hok Hne.
  assert (resolved_batch_of (req_batch_size request) = 0) as Hz.
  { unfold resolved_batch_of. rewrite py_or_positive by done.
    destruct (req_batch_size request); cbn in Hb; lia. }
  pose proof (embed_zero_batch (req_input request) (req_normalize request)
                (req_batch_size request) w Hok Hne Hz) as Hres.
  destruct (embed_events (req_input request) (req_normalize request)
              (req_batch_size request) w) as (evs & Htr & _ & _ & Hev).
  unfold create_embeddings. rewrite embed_normalized_inputs.
  destruct (embed _ _ _ w) as [w1 r]. cbn [fst snd] in *. subst r.
  split; [done|]. exists evs. cbn. split; [done|].
  destruct (snd (_load_llama w)) as [llama|e]; [|done].
  destruct Hev as (evs0 & calls & -> & Hc0 & _ & Hch & _).
  rewrite embed_compute_calls by done.
  unfold sub_batches in Hch.
  destruct (Z.ltb_spec 0 (resolved_batch_of (req_batch_size request))); [lia|].
  rewrite take_nil in Hch. apply fmap_nil_inv in Hch. by subst calls.
Qed.

(** ** More on [_load_llama] under contention *)

(** With a handle cached when the callers enter, nobody leaves the first
    check's branch. *)
Lemma warm_inv (n : nat) (w : World) (h : Llama) (c : Conc) :
  _instance w = Some h ->
  rtc step (conc_init n w) c ->
  world c = w /\ lock c = None
  /\ length (callers c) = n
  /\ forall i pc, callers c !! i = Some pc ->
       pc = PFastCheck \/ pc = PFastReturn \/ pc = PReturned (Some h).
Proof.
  intros Hi Hrun. revert c Hrun.
  apply (rtc_ind_r
           (fun c => world c = w /\ lock c = None /\ length (callers c) = n
                     /\ forall i pc, callers c !! i = Some pc ->
                          pc = PFastCheck \/ pc = PFastReturn
                          \/ pc = PReturned (Some h))).
  - cbn. repeat split; auto; [apply length_replicate|].
    intros i pc Hpc. apply lookup_replicate in Hpc as [-> _]. by left.
  - intros c1 c2 _ [i pc pc' w' lk' Hpc Hts] (Hw & Hlk & Hlen & Hall).
    cbn [world lock callers]. rewrite Hw, Hlk in Hts.
    assert (w' = w /\ lk' = None
            /\ (pc' = PFastCheck \/ pc' = PFastReturn
                \/ pc' = PReturned (Some h))) as (-> & -> & Hpc').
    { destruct (Hall i pc Hpc) as [-> | [-> | ->]]; cbn in Hts; rewrite ?Hi in Hts;
        simplify_eq; auto. }
    rewrite length_insert. repeat split; auto.
    intros j pcj [[-> ->]|[_ Hj]]%lookup_insert_cases; [done|by eapply Hall].
Qed.

(** Only the assignment writes [_instance]. *)
Lemma thread_step_instance (i : nat) (pc pc' : Pc) (w w' : World)
    (lk lk' : option nat) :
  thread_step i pc w lk = Some (pc', w', lk') ->
  (forall h, pc <> PAssign h) ->
  _instance w' = _instance w.
Proof.
  intros Hts Hna. destruct pc; cbn in Hts; try done.
  - by simplify_eq.
  - by simplify_eq.
  - destruct lk; by simplify_eq.
  - by simplify_eq.
  - by simplify_eq.
  - destruct (mkdir _ _); by simplify_eq.
  - destruct (hf_hub_download _ _ _ _); by simplify_eq.
  - by simplify_eq.
  - destruct (construct _ _); by simplify_eq.
  - by destruct (Hna h).
Qed.

(** X14. Mutual exclusion.  However the callers interleave, and whether a
    handle was cached when they entered or not, at most one caller is
    inside the [with] block at a time, it is the owner of the lock, and the
    lock is owned only by a caller that is inside. *)
Theorem lock_mutual_exclusion (n : nat) (w : World) (c : Conc) :
  rtc step (conc_init n w) c ->
  (forall i j pc pc',
     callers c !! i = Some pc -> callers c !! j = Some pc' ->
     holds_lock pc = true -> holds_lock pc' = true ->
     i = j /\ lock c = Some i)
  /\ (forall i, lock c = Some i ->
        exists pc, callers c !! i = Some pc /\ holds_lock pc = true).
Proof.
  intros Hrun. destruct (_instance w) as [h|] eqn:Hi.
  - destruct (warm_inv n w h c Hi Hrun) as (_ & Hlk & _ & Hall).
    split; [|by rewrite Hlk].
    intros i j pc pc' Hpc _ Hh _.
    by destruct (Hall i pc Hpc) as [-> | [-> | ->]].
  - destruct (reachable_inv n w c Hi Hrun) as [evs Hinv].
    split; [|apply (inv_locked _ _ _ Hinv)].
    intros i j pc pc' Hpc Hpc' Hh Hh'.
    pose proof (inv_holder _ _ _ Hinv i pc Hpc Hh) as H1.
    pose proof (inv_holder _ _ _ Hinv j pc' Hpc' Hh') as H2.
    split; [congruence|done].
Qed.

(** X15. The lock is not leaked.  In every state in which all the callers
    are out of [_load_llama], returned or raised, the lock is free, so a
    caller that comes later can take it. *)
Theorem lock_free_at_the_end (n : nat) (w : World) (c : Conc) :
  rtc step (conc_init n w) c ->
  (forall i pc, callers c !! i = Some pc -> finished pc = true) ->
  lock c = None.
Proof.
  intros Hrun Hfin. destruct (_instance w) as [h|] eqn:Hi.
  - by destruct (warm_inv n w h c Hi Hrun) as (_ & Hlk & _).
  - destruct (reachable_inv n w c Hi Hrun) as [evs Hinv].
    destruct (lock c) as [i|] eqn:Hlk; [|done].
    destruct (inv_locked _ _ _ Hinv i Hlk) as (pc & Hpc & Hh).
    specialize (Hfin i pc Hpc). by destruct pc.
Qed.

(** X16. The handle is never replaced.  Once [_instance] holds a handle, no
    step of any caller changes it. *)
Theorem instance_never_replaced (n : nat) (w : World) (c c' : Conc) (h : Llama) :
  rtc step (conc_init n w) c ->
  step c c' ->
  _instance (world c) = Some h ->
  _instance (world c') = Some h.
Proof.
  intros Hrun [i pc pc' w' lk' Hpc Hts] Hh. cbn [world].
  rewrite (thread_step_instance _ _ _ _ _ _ _ Hts); [done|].
  intros h' ->. destruct (_instance w) as [h0|] eqn:Hi.
  - destruct (warm_inv n w h0 c Hi Hrun) as (_ & _ & _ & Hall).
    by destruct (Hall i _ Hpc) as [?|[?|?]].
  - destruct (reachable_inv n w c Hi Hrun) as [evs Hinv].
    destruct (inv_pc _ _ _ Hinv i _ Hpc) as [Hnone _]. congruence.
Qed.

(** X17. Contention with the handle cached.  When [n] callers enter while a
    handle is cached, in every state they reach the lock is free and the
    state is as they found it: no collaborator is called.  Every caller
    that is not out can move, and the callers can only end with the cached
    handle, all of them. *)
Theorem warm_callers_take_the_fast_path (n : nat) (w : World) (h : Llama)
    (c : Conc) :
  _instance w = Some h ->
  rtc step (conc_init n w) c ->
  world c = w /\ lock c = None
  /\ (forall i pc, callers c !! i = Some pc -> finished pc = false ->
        exists c', step c c')
  /\ ((forall c', ~ step c c') -> callers c = replicate n (PReturned (Some h))).
Proof.
  intros Hi Hrun.
  destruct (warm_inv n w h c Hi Hrun) as (Hw & Hlk & Hlen & Hall).
  assert (forall i pc, callers c !! i = Some pc -> finished pc = false ->
                       exists c', step c c') as Hgo.
  { intros i pc Hpc Hnf.
    destruct (Hall i pc Hpc) as [-> | [-> | ->]]; [| |done];
      eexists; eapply (step_caller c i _ _ _ _ Hpc); cbn; done. }
  repeat split; auto.
  intros Hstuck. symmetry. apply replicate_as_Forall. split; [done|].
  apply Forall_forall. intros pc Hin.
  apply list_elem_of_lookup in Hin as [i Hpc].
  destruct (Hall i pc Hpc) as [-> | [-> | ->]]; [| |done];
    destruct (Hgo i _ Hpc eq_refl) as [c' Hc']; by destruct (Hstuck c').
Qed.

(** ** The latency probe ([scripts/measure_latency.py]) *)




Lemma rstrip_with_append (p : Ascii.ascii -> bool) (c : Ascii.ascii) (s : string) :
  p c = true ->
  rstrip_with p (s +:+ String c EmptyString) = rstrip_with p s.
Proof.
  intros Hc. induction s as [|a s IH].
  - change (EmptyString +:+ String c EmptyString) with (String c EmptyString).
    cbn. by rewrite Hc.
  - change (String a s +:+ String c EmptyString)
      with (String a (s +:+ String c EmptyString)).
    cbn [rstrip_with]. by rewrite IH.
Qed.

Lemma rstrip_with_last (p : Ascii.ascii -> bool) (s s' : string) (c : Ascii.ascii) :
  rstrip_with p s = s' +:+ String c EmptyString -> p c = false.
Proof.
  revert s'. induction s as [|a s IH]; intros s' Hr; cbn [rstrip_with] in Hr.
  - by destruct s'.
  - destruct (rstrip_with p s) as [|c' r] eqn:Hrs.
    + destruct (p a) eqn:Ha; [by destruct s'|].
      destruct s' as [|a' s'']; simpl in Hr.
      * by injection Hr as ->.
      * injection Hr as _ Hr. by destruct s''.
    + destruct s' as [|a' s'']; simpl in Hr; [done|].
      injection Hr as -> Hr. by apply (IH s'').
Qed.

Lemma rstrip_with_idem (p : Ascii.ascii -> bool) (s : string) :
  rstrip_with p (rstrip_with p s) = rstrip_with p s.
Proof.
  induction s as [|a s IH]; [done|]. cbn.
  destruct (rstrip_with p s) as [|c' r] eqn:Hrs.
  - destruct (p a) eqn:Ha; cbn; by rewrite ?Ha.
  - cbn in IH |- *. destruct (rstrip_with p r) eqn:Hrr.
    + destruct (p c') eqn:Hc'; [done|]. by injection IH as ->.
    + by rewrite IH.
Qed.

(** X20. Trailing slashes of the base URL do not matter.  The probe strips
    every trailing slash of the base URL before it appends the paths: the
    stripped base does not end with a slash, stripping again changes
    nothing, and a base URL with one more slash at its end gives the same
    health and embeddings URLs. *)
Theorem base_url_trailing_slashes (base_url : string) :
  strip_base_url (base_url +:+ "/") = strip_base_url base_url
  /\ strip_base_url (strip_base_url base_url) = strip_base_url base_url
  /\ (forall s, strip_base_url base_url <> s +:+ "/")
  /\ health_url (base_url +:+ "/") = health_url base_url
  /\ embeddings_url (base_url +:+ "/") = embeddings_url base_url.
Proof.
  assert (strip_base_url (base_url +:+ "/") = strip_base_url base_url) as H1
    by (by apply rstrip_with_append).
  split; [done|]. split; [apply rstrip_with_idem|]. split.
  - intros s Hs. by apply rstrip_with_last in Hs.
  - unfold health_url, embeddings_url. by rewrite H1.
Qed.
End Gateway.


(** ** The claims on concrete runs

    The collaborators are the stand-ins; a vector is a [nat], the length of
    the string it stands for. *)

Local Abbreviation run_embed settings accepts the_engine :=
  (embed settings true accepts mkdir_ok download_ok Llama_init_ok the_engine).

Lemma engine_one_per_input (vec : string -> nat) :
  forall (tr : list Event) (llama : Llama) (chunk : list string) (kwargs : Kwargs),
  exists resp,
    engine vec tr llama chunk kwargs = Ok resp
    /\ length (data resp) = length chunk
    /\ Forall (fun item : gmap string nat => is_Some (item !! "embedding"))
              (data resp).
Proof.
  intros tr llama chunk kwargs. eexists. split; [reflexivity|].
  cbn [data]. split; [apply length_fmap|].
  apply Forall_fmap, Forall_forall. intros s _. cbn.
  rewrite lookup_singleton_eq. by eexists.
Qed.

(** The scenario of the specification: a maximum of two, five inputs. *)
Example scenario_five_inputs :
  let call := run_embed (with_max_batch_size default_settings 2) true
                (engine String.length)
                (InSeq ["a"; "bb"; "ccc"; "dddd"; "e"]) true None initial_world in
  snd call = Ok [1; 2; 3; 4; 1]%nat
  /\ passed_chunks (trace (fst call)) = [["a"; "bb"]; ["ccc"; "dddd"]; ["e"]].
Proof. vm_compute. done. Qed.

(** Outside the contract of [embed]: a negative batch size, which the
    request schema refuses, gives nothing, and a maximum of zero makes
    [range] raise. *)
Example negative_batch_size :
  snd (run_embed default_settings true (engine String.length)
         (InSeq ["a"; "bb"]) true (Some (-1)) initial_world) = Ok [].
Proof. reflexivity. Qed.

Example zero_maximum :
  snd (run_embed (with_max_batch_size default_settings 0) true
         (engine String.length) (InSeq ["a"; "bb"]) true None initial_world)
  = Raise (ValueError "range() arg 3 must not be zero").
Proof. reflexivity. Qed.

Lemma embed_preserves_order_witness :
  0 < max_batch_size default_settings
  /\ batch_size_ge_1 (Some 2)
  /\ is_Ok (snd (_load_llama default_settings mkdir_ok download_ok Llama_init_ok
                   (@initial_world nat)))
  /\ exists evs res,
       trace (fst (run_embed default_settings true (engine String.length)
                     (InSeq ["a"; "bb"; "ccc"]) true (Some 2) initial_world))
       = trace (@initial_world nat) ++ evs
       /\ snd (run_embed default_settings true (engine String.length)
                 (InSeq ["a"; "bb"; "ccc"]) true (Some 2) initial_world)
          = Ok res
       /\ length res = 3%nat.
Proof.
  split; [reflexivity|]. split; [simpl; lia|]. split; [exact I|].
  destruct (embed_preserves_order default_settings true true mkdir_ok
              download_ok Llama_init_ok (engine String.length)
              ["a"; "bb"; "ccc"] true (Some 2) initial_world)
    as (evs & res & Htr & Hres & Hlen & _).
  - reflexivity.
  - simpl. lia.
  - exact I.
  - apply engine_one_per_input.
  - exists evs, res. auto.
Defined.

Local Abbreviation run_callers schedule n :=
  (run_schedule default_settings mkdir_ok download_ok Llama_init_ok schedule
     (conc_init n (@initial_world nat))).

(** Two callers race: both pass the first check, caller 0 takes the lock
    and builds the handle while caller 1 waits, then caller 1 finds it. *)
Lemma single_construction_under_contention_witness :
  let schedule := [0; 1; 0; 1; 0; 0; 0; 0; 0; 0; 0; 1; 1; 1]%nat in
  _instance (@initial_world nat) = None
  /\ rtc (step default_settings mkdir_ok download_ok Llama_init_ok)
         (conc_init 2 initial_world) (run_callers schedule 2%nat)
  /\ exists h,
       constructions (trace (world (run_callers schedule 2%nat))) = [Ok h]
       /\ callers (run_callers schedule 2%nat) = replicate 2 (PReturned (Some h)).
Proof.
  intros schedule. split; [reflexivity|]. split; [apply run_schedule_rtc|].
  destruct (single_construction_under_contention default_settings mkdir_ok
              download_ok Llama_init_ok 2 initial_world
              (run_callers schedule 2%nat) eq_refl
              (run_schedule_rtc _ _ _ _ _ _))
    as (evs & Htr & _ & _ & Hall & _).
  cbn [trace initial_world app] in Htr. rewrite Htr.
  apply Hall; [lia|].
  intros i pc Hpc. vm_compute in Hpc.
  destruct i as [|[|i]]; simplify_eq; by eexists.
Defined.

Lemma embed_sub_batch_size_witness :
  0 < max_batch_size default_settings
  /\ batch_size_ge_1 (Some 1000)
  /\ @resolved_batch_of default_settings (Some 1000) = 32
  /\ exists evs,
       trace (fst (run_embed default_settings true (engine String.length)
                     (InSeq ["a"; "bb"; "ccc"]) true (Some 1000) initial_world))
       = trace (@initial_world nat) ++ evs
       /\ Forall (fun c => Z.of_nat (length c) <= 32) (passed_chunks evs)
       /\ passed_chunks evs = [["a"; "bb"; "ccc"]].
Proof.
  split; [reflexivity|]. split; [simpl; lia|]. split; [reflexivity|].
  destruct (embed_sub_batch_size default_settings true true mkdir_ok
              download_ok Llama_init_ok (engine String.length)
              (InSeq ["a"; "bb"; "ccc"]) true (Some 1000) initial_world)
    as (_ & _ & _ & _ & evs & Htr & Hle & _ & _ & Hall & _).
  - reflexivity.
  - simpl. lia.
  - exists evs. split; [exact Htr|]. split; [exact Hle|].
    apply Hall; [exact I|].
    cbn [trace initial_world app] in Htr. rewrite <- Htr.
    vm_compute. repeat constructor.
Defined.

(** The engine raises on the third of five chunks. *)
Lemma compute_failure_fails_whole_call_witness :
  let request := {| req_input := InSeq ["a"; "b"; "c"; "d"; "e"];
                    req_normalize := true; req_batch_size := Some 1 |} in
  let call := run_embed default_settings true
                (engine_failing_on "c" String.length)
                (req_input request) (req_normalize request)
                (req_batch_size request) initial_world in
  snd call = Raise (LibraryError "engine failure")
  /\ snd (create_embeddings default_settings true true mkdir_ok download_ok
            Llama_init_ok (engine_failing_on "c" String.length) request
            initial_world)
     = HTTPException 500 "Embedding failure: engine failure".
Proof.
  intros request call.
  apply (compute_failure_fails_whole_call default_settings true true mkdir_ok
           download_ok Llama_init_ok (engine_failing_on "c" String.length)
           request initial_world (trace (fst call)) ["c"]
           {| kw_normalize := true;
              kw_pooling_type := Some (PoolingEnum mean) |}
           (LibraryError "engine failure")).
  - reflexivity.
  - apply (list_elem_of_lookup_2 _ 2%nat). reflexivity.
Defined.

(** The hub is unreachable at the first call and reachable at the next. *)
Lemma failed_load_is_retried_witness :
  let load := _load_llama default_settings mkdir_ok download_flaky Llama_init_ok in
  load (@initial_world nat)
  = (fst (load initial_world), Raise (LibraryError "offline"))
  /\ _instance (fst (load initial_world)) = None
  /\ is_Ok (snd (load (fst (load initial_world)))).
Proof.
  intros load.
  destruct (failed_load_is_retried default_settings true true mkdir_ok
              download_flaky Llama_init_ok (engine String.length)
              initial_world (fst (load initial_world))
              (LibraryError "offline") eq_refl)
    as (Hnone & _ & _ & Hretry & _).
  split; [reflexivity|]. split; [exact Hnone|].
  destruct (Hretry ".models/nomic-embed-text-v1.5.Q4_K_M.gguf"
              eq_refl eq_refl eq_refl) as (h & Hh & _).
  unfold load in Hh |- *. rewrite Hh. exact I.
Defined.

(** The engine's entry for ["bb"] has no vector. *)
Lemma embed_drops_entries_without_vector_witness :
  let call := run_embed default_settings true (engine_dropping "bb" String.length)
                (InSeq ["a"; "bb"; "ccc"]) true None initial_world in
  0 < max_batch_size default_settings
  /\ batch_size_ge_1 None
  /\ is_Ok (snd (_load_llama default_settings mkdir_ok download_ok Llama_init_ok
                   (@initial_world nat)))
  /\ trace (fst call) = trace (@initial_world nat) ++ trace (fst call)
  /\ Forall (fun c => is_Ok (snd c)) (compute_calls (trace (fst call)))
  /\ snd call = Ok [1; 3]%nat
  /\ (length [1; 3]%nat < length ["a"; "bb"; "ccc"])%nat
  /\ exists i s, ["a"; "bb"; "ccc"] !! i = Some s /\ [1; 3]%nat !! i = None.
Proof.
  intros call.
  assert (trace (fst call) = trace (@initial_world nat) ++ trace (fst call))
    as Htr by reflexivity.
  assert (Forall (fun c : list string * Kwargs * result Response => is_Ok (snd c))
                 (compute_calls (trace (fst call)))) as Hall
    by (vm_compute; repeat constructor).
  split; [reflexivity|]. split; [exact I|]. split; [exact I|].
  split; [exact Htr|]. split; [exact Hall|].
  destruct (embed_drops_entries_without_vector default_settings true true
              mkdir_ok download_ok Llama_init_ok
              (engine_dropping "bb" String.length)
              (InSeq ["a"; "bb"; "ccc"]) true None initial_world
              (trace (fst call)) eq_refl I I Htr Hall)
    as (resps & kept & Hs & _ & Hres & _ & Hshort).
  assert (@Ok (list nat) (concat kept) = Ok [1; 3]%nat) as Hkept
    by (rewrite <- Hres; reflexivity).
  injection Hkept as Hkept.
  split; [reflexivity|]. rewrite <- Hkept.
  apply Hshort.
  - apply Forall_forall. intros c Hc resp Hr.
    apply list_elem_of_lookup in Hc as [[|[|i]] Hc]; vm_compute in Hc;
      simplify_eq.
    vm_compute in Hr. simplify_eq. cbn. lia.
  - vm_compute in Hs. destruct resps as [|resp [|? ?]]; simplify_eq.
    eexists _, ∅. split; [apply list_elem_of_here|].
    split; [|reflexivity].
    apply (list_elem_of_lookup_2 _ 1%nat). reflexivity.
Defined.

(** C6, as stated, fails: with no handle cached and the hub unreachable,
    [embed] on the empty sequence raises. *)
Lemma embed_empty_inputs_counterexample :
  snd (embed default_settings true true mkdir_ok download_offline
         Llama_init_ok (engine String.length) (InSeq []) true None
         initial_world)
  = Raise (LibraryError "offline")
  /\ snd (embed default_settings true true mkdir_ok download_offline
            Llama_init_ok (engine String.length) (InSeq []) true None
            initial_world)
     <> Ok [].
Proof. split; [reflexivity|discriminate]. Qed.

(** C9, as stated, fails: with an engine whose [create_embedding] is found
    not to accept [pooling_type] (an older llama_cpp, which has no pooling
    enumeration either), the configured strategy, here cls, is not passed
    to it: the call carries no pooling value at all. *)
Lemma pooling_is_the_configured_one_counterexample :
  let call := embed (with_pooling default_settings cls) false false mkdir_ok
                download_ok Llama_init_ok (engine String.length)
                (InSeq ["a"]) true None initial_world in
  snd call = Ok [1%nat]
  /\ (fun c => kw_pooling_type (snd (fst c))) <$> compute_calls (trace (fst call))
     = [None]
  /\ ~ Forall (fun c => kw_pooling_type (snd (fst c))
                        = Some (pooling_value false cls))
         (compute_calls (trace (fst call))).
Proof.
  intros call. split; [reflexivity|]. split; [reflexivity|].
  intros Hall.
  remember (compute_calls (trace (fst call))) as calls eqn:Hcalls.
  vm_compute in Hcalls. subst calls.
  apply Forall_cons in Hall as [Hfirst _]. discriminate Hfirst.
Qed.

(** ** The further properties on concrete runs *)

Lemma engine_pointwise (vec : string -> nat) :
  forall (tr : list Event) (llama : Llama) (chunk : list string) (kwargs : Kwargs),
  exists resp,
    engine vec tr llama chunk kwargs = Ok resp
    /\ (fun item : gmap string nat => item !! "embedding") <$> data resp
       = (fun s => Some (vec s)) <$> chunk.
Proof.
  intros tr llama chunk kwargs. eexists. split; [reflexivity|].
  cbn [data]. rewrite <- list_fmap_compose. apply list_fmap_ext.
  intros _ s _. cbn. by rewrite lookup_singleton_eq.
Qed.

Local Abbreviation load_ok :=
  (_load_llama default_settings mkdir_ok download_ok Llama_init_ok).

Lemma first_load_calls_witness :
  _instance (@initial_world nat) = None
  /\ is_Ok (snd (load_ok (@initial_world nat)))
  /\ exists p,
       _model_path (fst (load_ok (@initial_world nat))) = Some p
       /\ length (trace (fst (load_ok (@initial_world nat)))) = 3%nat.
Proof.
  split; [reflexivity|]. split; [exact I|].
  destruct (first_load_calls default_settings mkdir_ok download_ok
              Llama_init_ok (@initial_world nat) (fst (load_ok initial_world))
              {| llama_id := 2;
                 llama_args := llama_args_of default_settings
                                 ".models/nomic-embed-text-v1.5.Q4_K_M.gguf" |}
              eq_refl eq_refl)
    as (p & Htr & _ & Hpath & _).
  exists p. split; [exact Hpath|]. by rewrite Htr.
Defined.

Lemma failed_load_calls_witness :
  let load := _load_llama default_settings mkdir_ok download_offline
                Llama_init_ok in
  snd (load (@initial_world nat)) = Raise (LibraryError "offline")
  /\ _instance (fst (load initial_world)) = None
  /\ length (trace (fst (load initial_world))) = 2%nat.
Proof.
  intros load. split; [reflexivity|].
  destruct (failed_load_calls default_settings mkdir_ok download_offline
              Llama_init_ok (@initial_world nat) (fst (load initial_world))
              (LibraryError "offline") eq_refl)
    as (_ & Hnone & _ & _).
  split; [exact Hnone|reflexivity].
Defined.

Lemma embed_with_cached_handle_witness :
  let w := fst (load_ok (@initial_world nat)) in
  let h := {| llama_id := 2;
              llama_args := llama_args_of default_settings
                              ".models/nomic-embed-text-v1.5.Q4_K_M.gguf" |} in
  _instance w = Some h
  /\ _instance (fst (run_embed default_settings true (engine String.length)
                       (InSeq ["a"; "bb"]) true None w)) = Some h.
Proof.
  intros w h. split; [reflexivity|].
  destruct (embed_with_cached_handle default_settings true true mkdir_ok
              download_ok Llama_init_ok (engine String.length)
              (InSeq ["a"; "bb"]) true None w h eq_refl) as (Hi & _).
  exact Hi.
Defined.

Lemma service_keeps_one_handle_witness :
  world_ok (@initial_world nat)
  /\ (length (constructed
                (trace (fst (service default_settings true true mkdir_ok
                               download_flaky Llama_init_ok
                               (engine String.length)
                               [{| req_input := InStr "a";
                                   req_normalize := true;
                                   req_batch_size := None |};
                                {| req_input := InSeq ["b"; "c"];
                                   req_normalize := false;
                                   req_batch_size := Some 1%Z |}]
                               initial_world)))) <= 1)%nat.
Proof.
  assert (world_ok (@initial_world nat)) as Hok by (split; [reflexivity|constructor]).
  split; [exact Hok|].
  destruct (service_keeps_one_handle default_settings true true mkdir_ok
              download_flaky Llama_init_ok (engine String.length)
              [{| req_input := InStr "a"; req_normalize := true;
                  req_batch_size := None |};
               {| req_input := InSeq ["b"; "c"]; req_normalize := false;
                  req_batch_size := Some 1%Z |}]
              initial_world Hok) as (Hle & _).
  exact Hle.
Defined.

Lemma warm_service_never_loads_witness :
  is_Ok (snd (run_embed default_settings true (engine String.length)
                (InSeq ["warmup"]) true None (@initial_world nat)))
  /\ exists h,
       _instance (fst (service default_settings true true mkdir_ok download_ok
                         Llama_init_ok (engine String.length)
                         [{| req_input := InStr "a"; req_normalize := true;
                             req_batch_size := None |}]
                         initial_world)) = Some h.
Proof.
  split; [exact I|].
  destruct (warm_service_never_loads default_settings true true mkdir_ok
              download_ok Llama_init_ok (engine String.length)
              [{| req_input := InStr "a"; req_normalize := true;
                  req_batch_size := None |}]
              initial_world I) as (h & _ & Hi & _).
  by exists h.
Defined.

Lemma embed_result_independent_of_batch_witness :
  0 < max_batch_size default_settings
  /\ batch_size_ge_1 (Some 1) /\ batch_size_ge_1 (Some 2)
  /\ is_Ok (snd (load_ok (@initial_world nat)))
  /\ snd (run_embed default_settings true (engine String.length)
            (InSeq ["a"; "bb"; "ccc"]) true (Some 1) initial_world)
     = snd (run_embed default_settings true (engine String.length)
              (InSeq ["a"; "bb"; "ccc"]) true (Some 2) initial_world).
Proof.
  split; [reflexivity|]. split; [simpl; lia|]. split; [simpl; lia|].
  split; [exact I|].
  destruct (embed_result_independent_of_batch default_settings true true
              mkdir_ok download_ok Llama_init_ok (engine String.length)
              (fun _ => String.length) (InSeq ["a"; "bb"; "ccc"]) true
              (Some 1) (Some 2) initial_world) as [Heq _].
  - reflexivity.
  - simpl. lia.
  - simpl. lia.
  - exact I.
  - apply engine_pointwise.
  - exact Heq.
Defined.

Lemma embed_call_count_witness :
  let call := run_embed default_settings true (engine String.length)
                (InSeq ["a"; "b"; "c"; "d"; "e"]) true (Some 2) initial_world in
  0 < max_batch_size default_settings
  /\ batch_size_ge_1 (Some 2)
  /\ is_Ok (snd call)
  /\ length (compute_calls (trace (fst call))) = 3%nat.
Proof.
  intros call. split; [reflexivity|]. split; [simpl; lia|]. split; [exact I|].
  destruct (embed_call_count default_settings true true mkdir_ok download_ok
              Llama_init_ok (engine String.length)
              (InSeq ["a"; "b"; "c"; "d"; "e"]) true (Some 2) initial_world
              (trace (fst call))) as [Hn _].
  - reflexivity.
  - simpl. lia.
  - exact I.
  - reflexivity.
  - exact Hn.
Defined.

Lemma negative_maximum_returns_nothing_witness :
  let settings := with_max_batch_size default_settings (-1) in
  let request := {| req_input := InSeq ["a"; "bb"]; req_normalize := true;
                    req_batch_size := Some 1 |} in
  max_batch_size settings < 0
  /\ is_Ok (snd (_load_llama settings mkdir_ok download_ok Llama_init_ok
                   (@initial_world nat)))
  /\ snd (run_embed settings true (engine String.length) (req_input request)
            (req_normalize request) (req_batch_size request) initial_world)
     = Ok [].
Proof.
  intros settings request. split; [reflexivity|]. split; [exact I|].
  destruct (negative_maximum_returns_nothing settings true true mkdir_ok
              download_ok Llama_init_ok (engine String.length) request
              initial_world) as [Hres _].
  - reflexivity.
  - exact I.
  - exact Hres.
Defined.

Lemma zero_maximum_fails_witness :
  let settings := with_max_batch_size default_settings 0 in
  let request := {| req_input := InStr "a"; req_normalize := true;
                    req_batch_size := None |} in
  max_batch_size settings = 0
  /\ batch_size_ge_1 (req_batch_size request)
  /\ snd (create_embeddings settings true true mkdir_ok download_ok
            Llama_init_ok (engine String.length) request initial_world)
     = HTTPException 500 "Embedding failure: range() arg 3 must not be zero".
Proof.
  intros settings request. split; [reflexivity|]. split; [exact I|].
  destruct (zero_maximum_fails settings true true mkdir_ok download_ok
              Llama_init_ok (engine String.length) request initial_world)
    as [Hres _].
  - reflexivity.
  - exact I.
  - exact I.
  - discriminate.
  - exact Hres.
Defined.

(** Caller 0 is inside the lock, at the download; caller 1 waits. *)
Lemma lock_mutual_exclusion_witness :
  let c := run_callers [0; 1; 0; 1; 0; 0]%nat 2%nat in
  rtc (step default_settings mkdir_ok download_ok Llama_init_ok)
      (conc_init 2 initial_world) c
  /\ lock c = Some 0%nat
  /\ callers c = [PDownload; PAcquire].
Proof.
  intros c. split; [apply run_schedule_rtc|].
  destruct (lock_mutual_exclusion default_settings mkdir_ok download_ok
              Llama_init_ok 2 initial_world c (run_schedule_rtc _ _ _ _ _ _))
    as [Hex _].
  destruct (Hex 0%nat 0%nat PDownload PDownload eq_refl eq_refl eq_refl eq_refl)
    as [_ Hlk].
  split; [exact Hlk|reflexivity].
Defined.

Lemma lock_free_at_the_end_witness :
  let c := run_callers [0; 1; 0; 1; 0; 0; 0; 0; 0; 0; 0; 1; 1; 1]%nat 2%nat in
  rtc (step default_settings mkdir_ok download_ok Llama_init_ok)
      (conc_init 2 initial_world) c
  /\ lock c = None.
Proof.
  intros c. split; [apply run_schedule_rtc|].
  apply (lock_free_at_the_end default_settings mkdir_ok download_ok
           Llama_init_ok 2 initial_world c (run_schedule_rtc _ _ _ _ _ _)).
  intros i pc Hpc. vm_compute in Hpc.
  destruct i as [|[|i]]; simplify_eq; reflexivity.
Defined.

(** Caller 0 has just cached the handle; caller 1 then takes the lock. *)
Lemma instance_never_replaced_witness :
  let c := run_callers [0; 1; 0; 0; 0; 0; 0; 0; 0; 0]%nat 2%nat in
  let c' := run_callers [0; 1; 0; 0; 0; 0; 0; 0; 0; 0; 1]%nat 2%nat in
  exists h,
    _instance (world c) = Some h /\ _instance (world c') = Some h.
Proof.
  intros c c'.
  assert (step default_settings mkdir_ok download_ok Llama_init_ok c c') as Hstep.
  { apply (step_caller default_settings mkdir_ok download_ok Llama_init_ok
             c 1%nat PAcquire PSlowCheck (world c) (Some 1%nat));
      reflexivity. }
  eexists. split; [reflexivity|].
  apply (instance_never_replaced default_settings mkdir_ok download_ok
           Llama_init_ok 2 initial_world c c' _
           (run_schedule_rtc _ _ _ _ _ _) Hstep).
  reflexivity.
Defined.

Lemma warm_callers_take_the_fast_path_witness :
  let w := fst (load_ok (@initial_world nat)) in
  let c := run_schedule default_settings mkdir_ok download_ok Llama_init_ok
             [0; 1; 1; 0]%nat (conc_init 2 w) in
  (exists h, _instance w = Some h)
  /\ world c = w /\ lock c = None.
Proof.
  intros w c. split; [by eexists|].
  destruct (warm_callers_take_the_fast_path default_settings mkdir_ok
              download_ok Llama_init_ok 2 w _ c eq_refl
              (run_schedule_rtc _ _ _ _ _ _)) as (Hw & Hlk & _).
  split; [exact Hw|exact Hlk].
Defined.
